(** * FumoRfetch: a shallow embedding of [src/main.rs]

    Rust strings are modelled as lists of Unicode scalar values (code points,
    as [Z]); Rust string literals are written with [lit].  The outside world
    (files, environment variables, external commands, path existence) is a
    record [World]; the program runs in a small monad that records its
    observable events (file reads, process spawns, stdout writes) and ends
    either with a value or with a panic.  Integer types [u64]/[usize] are [Z]
    or [nat] with their range made explicit where it matters. *)

From Stdlib Require Import List ZArith Lia Bool String Ascii.
Import ListNotations.
Open Scope Z_scope.

(** ** Rust strings *)

Definition rchar := Z.
Definition rstr := list rchar.

Fixpoint lit (s : string) : rstr :=
  match s with
  | EmptyString => []
  | String a s' => Z.of_nat (nat_of_ascii a) :: lit s'
  end.

Definition ESC : rchar := 27.
Definition NL : rchar := 10.
Definition CR : rchar := 13.
Definition SPACE : rchar := 32.
Definition QUOTE : rchar := 34.
Definition COLON : rchar := 58.
Definition SLASH : rchar := 47.
Definition CHAR_m : rchar := 109.

(** [char::is_whitespace]: the Unicode White_Space property. *)
Definition is_whitespace (c : rchar) : bool :=
  ((9 <=? c) && (c <=? 13)) || (c =? 32) || (c =? 133) || (c =? 160)
  || (c =? 5760) || ((8192 <=? c) && (c <=? 8202)) || (c =? 8232)
  || (c =? 8233) || (c =? 8239) || (c =? 8287) || (c =? 12288).

Fixpoint drop_while (p : rchar -> bool) (s : rstr) : rstr :=
  match s with
  | [] => []
  | c :: s' => if p c then drop_while p s' else s
  end.

(** [str::trim_matches] with a character predicate: strips every leading
    and trailing character satisfying [p]. *)
Definition trim_by (p : rchar -> bool) (s : rstr) : rstr :=
  rev (drop_while p (rev (drop_while p s))).

(** [str::trim]. *)
Definition trim (s : rstr) : rstr := trim_by is_whitespace s.

(** [str::trim_matches] on the double-quote character. *)
Definition trim_matches_quote (s : rstr) : rstr := trim_by (Z.eqb QUOTE) s.

Fixpoint starts_with (pre s : rstr) : bool :=
  match pre, s with
  | [], _ => true
  | p :: pre', c :: s' => (p =? c) && starts_with pre' s'
  | _ :: _, [] => false
  end.

(** [str::find(&str)]: index of the first occurrence. *)
Fixpoint find_str (needle s : rstr) : option nat :=
  if starts_with needle s then Some 0%nat
  else match s with
       | [] => None
       | _ :: s' => option_map S (find_str needle s')
       end.

(** [str::contains(&str)]. *)
Definition contains (needle s : rstr) : bool :=
  match find_str needle s with Some _ => true | None => false end.

(** [str::find(char)]. *)
Fixpoint find_char (c : rchar) (s : rstr) : option nat :=
  match s with
  | [] => None
  | d :: s' => if d =? c then Some 0%nat else option_map S (find_char c s')
  end.

(** [str::replacen(pat, "", 1)]: removes the first occurrence of [pat]. *)
Definition replacen_empty_1 (pat s : rstr) : rstr :=
  match find_str pat s with
  | Some i => firstn i s ++ skipn (i + List.length pat) s
  | None => s
  end.

(** [str::split(char)]: the pieces between separators, always at least one. *)
Fixpoint split_char (sep : rchar) (s : rstr) : list rstr :=
  match s with
  | [] => [[]]
  | c :: s' =>
      if c =? sep then [] :: split_char sep s'
      else match split_char sep s' with
           | p :: ps => (c :: p) :: ps
           | [] => [[c]]
           end
  end.

(** [str::split_whitespace]: the non-empty runs of non-whitespace. *)
Fixpoint split_ws_aux (cur : rstr) (s : rstr) : list rstr :=
  match s with
  | [] => match cur with [] => [] | _ => [rev cur] end
  | c :: s' =>
      if is_whitespace c then
        match cur with
        | [] => split_ws_aux [] s'
        | _ => rev cur :: split_ws_aux [] s'
        end
      else split_ws_aux (c :: cur) s'
  end.
Definition split_whitespace (s : rstr) : list rstr := split_ws_aux [] s.

(** [str::lines]: split after each ['\n']; a line ending in ["\r\n"] loses
    both; a final line without ['\n'] is kept as is (with any ['\r']); an
    empty string and a final ['\n'] produce no empty last line. *)
Definition strip_line_end (l : rstr) : rstr :=
  match rev l with
  | c :: r => if c =? NL then
                match r with
                | d :: r' => if d =? CR then rev r' else rev r
                | [] => []
                end
              else l
  | [] => l
  end.

Fixpoint split_inclusive_nl (cur : rstr) (s : rstr) : list rstr :=
  match s with
  | [] => match cur with [] => [] | _ => [rev cur] end
  | c :: s' =>
      if c =? NL then rev (c :: cur) :: split_inclusive_nl [] s'
      else split_inclusive_nl (c :: cur) s'
  end.

Definition lines (s : rstr) : list rstr :=
  map strip_line_end (split_inclusive_nl [] s).

(** [str::to_lowercase], as far as it is observable here: ASCII letters,
    U+0130 (to "i" + U+0307) and the Kelvin sign U+212A (to "k") are the only
    characters whose lower case contains ASCII; every other character is
    kept, since the lowered text is only searched for ASCII needles. *)
Definition lower_char (c : rchar) : rstr :=
  if (65 <=? c) && (c <=? 90) then [c + 32]
  else if c =? 304 then [105; 775]
  else if c =? 8490 then [107]
  else [c].

Definition to_lowercase (s : rstr) : rstr := flat_map lower_char s.

(** [format!("{}", n)] for a non-negative integer. *)
Fixpoint digits_aux (fuel : nat) (n : Z) (acc : rstr) : rstr :=
  match fuel with
  | O => acc
  | S f => let acc' := (48 + n mod 10) :: acc in
           if n <? 10 then acc' else digits_aux f (n / 10) acc'
  end.
Definition fmt_int (n : Z) : rstr := digits_aux (Z.to_nat (Z.log2 n + 1)) n [].

(** [u64::from_str]: an optional ['+'], then one or more ASCII digits; the
    value must fit in 64 bits. *)
Definition U64_MAX : Z := 2 ^ 64 - 1.

Definition is_digit (c : rchar) : bool := (48 <=? c) && (c <=? 57).

Fixpoint digits_value (acc : Z) (s : rstr) : option Z :=
  match s with
  | [] => Some acc
  | c :: s' => if is_digit c then digits_value (10 * acc + (c - 48)) s' else None
  end.

Definition parse_u64 (s : rstr) : option Z :=
  let body := match s with 43 :: r => r | _ => s end in
  match body with
  | [] => None
  | _ => match digits_value 0 body with
         | Some v => if v <=? U64_MAX then Some v else None
         | None => None
         end
  end.

(** ** Binary64 values

    A finite double is kept as its exact value [(-1)^neg * m * 2^e]; every
    operation below rounds to nearest, ties to even, exactly as IEEE 754 and
    Rust's [core] do. *)

Inductive f64 :=
| F64Fin (neg : bool) (m : Z) (e : Z)
| F64Inf (neg : bool)
| F64NaN.

(** Nearest integer to [num / den] ([den > 0]), ties to even. *)
Definition round_ne_div (num den : Z) : Z :=
  let q := num / den in
  let r := num mod den in
  if den <? 2 * r then q + 1
  else if 2 * r <? den then q
  else if Z.even q then q else q + 1.

(** [floor (log2 (p / q))] for [p, q > 0]. *)
Definition floor_log2_q (p q : Z) : Z :=
  let e := Z.log2 p - Z.log2 q in
  let fits := if 0 <=? e then q * 2 ^ e <=? p else q <=? p * 2 ^ (- e) in
  if fits then e else e - 1.

(** The double nearest to [p / q] ([p >= 0], [q > 0]), with subnormals and
    overflow to infinity. *)
Definition round_to_f64 (neg : bool) (p q : Z) : f64 :=
  if p =? 0 then F64Fin neg 0 0 else
  let k := Z.max (-1074) (floor_log2_q p q - 52) in
  let m := if 0 <=? k then round_ne_div p (q * 2 ^ k)
           else round_ne_div (p * 2 ^ (- k)) q in
  let overflow := if 0 <=? k then 2 ^ 1024 <=? m * 2 ^ k
                  else 2 ^ (1024 - k) <=? m in
  if overflow then F64Inf neg else F64Fin neg m k.

(** [n as f64] for an unsigned integer [n]. *)
Definition f64_of_u64 (n : Z) : f64 := round_to_f64 false n 1.

(** Division of a finite double by [2^n]: exact while the result stays in
    the normal range, which holds for every use below (quotients of
    integers by [1024] or [1024 * 1024]). *)
Definition fdiv_pow2 (x : f64) (n : Z) : f64 :=
  match x with
  | F64Fin s m e => F64Fin s m (e - n)
  | _ => x
  end.

Definition signed_mant (s : bool) (m : Z) : Z := if s then - m else m.

(** [x > y] on doubles. *)
Definition f64_gt (x y : f64) : bool :=
  match x, y with
  | F64NaN, _ | _, F64NaN => false
  | F64Inf false, F64Inf false => false
  | F64Inf false, _ => true
  | F64Inf true, _ => false
  | _, F64Inf false => false
  | _, F64Inf true => true
  | F64Fin s1 m1 e1, F64Fin s2 m2 e2 =>
      let e := Z.min e1 e2 in
      signed_mant s2 m2 * 2 ^ (e2 - e) <? signed_mant s1 m1 * 2 ^ (e1 - e)
  end.

(** Nearest integer to [m * 2^e * c] ([m, c >= 0]), ties to even. *)
Definition round_scaled (m e c : Z) : Z :=
  if 0 <=? e then m * 2 ^ e * c else round_ne_div (m * c) (2 ^ (- e)).

Definition two_digits (n : Z) : rstr := [48 + n / 10; 48 + n mod 10].

(** [format!("{:.2}", x)] for a finite double: the exact value rounded to
    two decimals, ties to even (the exact mode of [core::fmt] on floats). *)
Definition fmt_fixed2 (x : f64) : rstr :=
  match x with
  | F64Fin s m e =>
      let q := round_scaled m e 100 in
      (if s then [45] else []) ++ fmt_int (q / 100) ++ [46] ++ two_digits (q mod 100)
  | F64Inf s => (if s then [45] else []) ++ lit "inf"
  | F64NaN => lit "NaN"
  end.

(** [<f64 as FromStr>::from_str] (core's [dec2flt]): an optional sign, then
    either [inf], [infinity] or [nan] in any ASCII case, or a decimal
    of digits with an optional point and at least one digit, followed by
    optionally [e] or [E], a sign and at least one digit; the exponent stops
    accumulating once it reaches [0x10000].  The result is the double
    nearest to the exact decimal value. *)
Fixpoint take_digits (s : rstr) : rstr * rstr :=
  match s with
  | c :: s' => if is_digit c then let (d, r) := take_digits s' in (c :: d, r)
               else ([], s)
  | [] => ([], [])
  end.

Definition digits_to_Z (d : rstr) : Z :=
  fold_left (fun acc c => 10 * acc + (c - 48)) d 0.

Definition exp_digits_to_Z (d : rstr) : Z :=
  fold_left (fun acc c => if acc <? 65536 then 10 * acc + (c - 48) else acc) d 0.

Definition parse_exponent (s : rstr) : option Z :=
  let (eneg, body) := match s with
                      | 45 :: r => (true, r)
                      | 43 :: r => (false, r)
                      | _ => (false, s)
                      end in
  match take_digits body with
  | ([], _) => None
  | (d, []) => Some (if eneg then - exp_digits_to_Z d else exp_digits_to_Z d)
  | (_, _ :: _) => None
  end.

(** The decimal form: [(N, E)] for the value [N * 10^E]. *)
Definition parse_decimal (s : rstr) : option (Z * Z) :=
  let (ip, r1) := take_digits s in
  let '(fp, r2) := match r1 with
                   | 46 :: r => take_digits r
                   | _ => ([], r1)
                   end in
  if ((List.length ip + List.length fp) =? 0)%nat then None else
  let n := digits_to_Z (ip ++ fp) in
  let e0 := - Z.of_nat (List.length fp) in
  match r2 with
  | [] => Some (n, e0)
  | c :: r => if (c =? 101) || (c =? 69) then
                match parse_exponent r with
                | Some x => Some (n, e0 + x)
                | None => None
                end
              else None
  end.

Definition ascii_upper (c : rchar) : rchar :=
  if (97 <=? c) && (c <=? 122) then c - 32 else c.

Definition parse_inf_nan (neg : bool) (s : rstr) : option f64 :=
  let u := map ascii_upper s in
  if list_eq_dec Z.eq_dec u (lit "NAN") then Some F64NaN
  else if list_eq_dec Z.eq_dec u (lit "INF") then Some (F64Inf neg)
  else if list_eq_dec Z.eq_dec u (lit "INFINITY") then Some (F64Inf neg)
  else None.

Definition parse_f64 (s : rstr) : option f64 :=
  match s with
  | [] => None
  | c :: r =>
      let neg := c =? 45 in
      let body := if (c =? 45) || (c =? 43) then r else s in
      match body with
      | [] => None
      | _ => match parse_decimal body with
             | Some (n, e) =>
                 Some (if 0 <=? e then round_to_f64 neg (n * 10 ^ e) 1
                       else round_to_f64 neg n (10 ^ (- e)))
             | None => parse_inf_nan neg body
             end
      end
  end.

(** [Duration::from_secs_f64]: panics ([None]) on a negative value, NaN,
    infinity or a value of [2^64] seconds or more; otherwise the value
    rounded to the nearest nanosecond, ties to even, as [(secs, nanos)]. *)
Definition NANOS_PER_SEC : Z := 1000000000.

Definition from_secs_f64 (x : f64) : option (Z * Z) :=
  match x with
  | F64Fin s m e =>
      if s && (0 <? m) then None
      else if (if 0 <=? e then 2 ^ 64 <=? m * 2 ^ e else 2 ^ (64 - e) <=? m)
      then None
      else let t := round_scaled m e NANOS_PER_SEC in
           Some (t / NANOS_PER_SEC, t mod NANOS_PER_SEC)
  | _ => None
  end.

(** ** The outside world and the program monad *)

(** What the program can observe.  [w_read p] is [fs::read_to_string(p)]
    ([None] for any I/O or UTF-8 error); [w_env k] is [env::var(k)];
    [w_spawn prog args] is the stdout of [Command::new(prog).args(args)
    .output()], already decoded by [String::from_utf8_lossy] ([None] when
    the program cannot be spawned; the exit status is never inspected);
    [w_exists p] is [Path::new(p).exists()]. *)
Record World := {
  w_read : rstr -> option rstr;
  w_env : rstr -> option rstr;
  w_spawn : rstr -> list rstr -> option rstr;
  w_exists : rstr -> bool
}.

(** Observable events.  [EvCall f] marks the entry into function [f]. *)
Inductive event :=
| EvCall (f : string)
| EvRead (path : rstr)
| EvSpawn (prog : rstr) (args : list rstr)
| EvOut (text : rstr).

Inductive outcome (A : Type) :=
| Ret (a : A)
| Panic (msg : string).
Arguments Ret {A} a.
Arguments Panic {A} msg.

(** A computation reads the world, emits a trace and returns or panics. *)
Definition M (A : Type) : Type := World -> list event * outcome A.

Definition ret {A} (a : A) : M A := fun _ => ([], Ret a).

Definition bind {A B} (m : M A) (k : A -> M B) : M B :=
  fun w => let (t1, o) := m w in
           match o with
           | Ret a => let (t2, o2) := k a w in (t1 ++ t2, o2)
           | Panic s => (t1, Panic s)
           end.

Notation "x <- m ;; k" := (bind m (fun x => k))
  (at level 61, m at next level, right associativity).

Definition panic {A} (msg : string) : M A := fun _ => ([], Panic msg).
Definition read_to_string (p : rstr) : M (option rstr) :=
  fun w => ([EvRead p], Ret (w_read w p)).
Definition output (prog : rstr) (args : list rstr) : M (option rstr) :=
  fun w => ([EvSpawn prog args], Ret (w_spawn w prog args)).
Definition env_var (k : rstr) : M (option rstr) := fun w => ([], Ret (w_env w k)).
Definition path_exists (p : rstr) : M bool := fun w => ([], Ret (w_exists w p)).
Definition print (s : rstr) : M unit := fun _ => ([EvOut s], Ret tt).
Definition println (s : rstr) : M unit := print (s ++ [NL]).
Definition call {A} (f : string) (m : M A) : M A :=
  fun w => let (t, o) := m w in (EvCall f :: t, o).

Definition unwrap_or (o : option rstr) (d : rstr) : rstr :=
  match o with Some v => v | None => d end.

(** ** Field probes *)

Definition get_hostname : M rstr := call "get_hostname" (
  r <- read_to_string (lit "/etc/hostname") ;;
  ret (trim (unwrap_or r (lit "Unknown")))).

Definition get_os_info : M rstr := call "get_os_info" (
  r <- read_to_string (lit "/etc/os-release") ;;
  ret (match r with
       | Some os_release =>
           match find (starts_with (lit "PRETTY_NAME=")) (lines os_release) with
           | Some line => trim_matches_quote (replacen_empty_1 (lit "PRETTY_NAME=") line)
           | None => lit "Linux"
           end
       | None => lit "Linux"
       end)).

Definition get_kernel_version : M rstr := call "get_kernel_version" (
  o <- output (lit "uname") [lit "-r"] ;;
  match o with
  | None => panic "Failed to get kernel version"
  | Some out => ret (trim out)
  end).

Definition format_uptime (total_secs : Z) : rstr :=
  let days := total_secs / 86400 in
  let hours := (total_secs mod 86400) / 3600 in
  let mins := (total_secs mod 3600) / 60 in
  if 0 <? days then
    fmt_int days ++ lit "d " ++ fmt_int hours ++ lit "h " ++ fmt_int mins ++ lit "m"
  else if 0 <? hours then
    fmt_int hours ++ lit "h " ++ fmt_int mins ++ lit "m"
  else fmt_int mins ++ lit "m".

Definition get_uptime : M rstr := call "get_uptime" (
  r <- read_to_string (lit "/proc/uptime") ;;
  match r with
  | Some uptime_str =>
      match split_whitespace uptime_str with
      | secs_str :: _ =>
          match parse_f64 secs_str with
          | Some secs =>
              match from_secs_f64 secs with
              | Some (whole, _) => ret (format_uptime whole)
              | None => panic "can not convert float seconds to Duration"
              end
          | None => ret (lit "Unknown")
          end
      | [] => ret (lit "Unknown")
      end
  | None => ret (lit "Unknown")
  end).

Definition get_shell : M rstr := call "get_shell" (
  v <- env_var (lit "SHELL") ;;
  ret (last (split_char SLASH (unwrap_or v (lit "Unknown"))) (lit "Unknown"))).

Definition get_terminal : M (option rstr) := call "get_terminal" (env_var (lit "TERM")).

Definition count_label (out : rstr) (label : string) : rstr :=
  fmt_int (Z.of_nat (List.length (lines out))) ++ lit " (" ++ lit label ++ lit ")".

Definition get_package_count : M rstr := call "get_package_count" (
  o1 <- output (lit "dpkg") [lit "--get-selections"] ;;
  match o1 with
  | Some out => ret (count_label out "apt")
  | None =>
      o2 <- output (lit "pacman") [lit "-Q"] ;;
      match o2 with
      | Some out => ret (count_label out "pacman")
      | None =>
          o3 <- output (lit "rpm") [lit "-qa"] ;;
          match o3 with
          | Some out => ret (count_label out "rpm")
          | None => ret (lit "Unknown")
          end
      end
  end).

Definition get_cpu_info : M rstr := call "get_cpu_info" (
  r <- read_to_string (lit "/proc/cpuinfo") ;;
  ret (match r with
       | Some cpu_info =>
           match find (starts_with (lit "model name")) (lines cpu_info) with
           | Some line => trim (unwrap_or (nth_error (split_char COLON line) 1) (lit "Unknown"))
           | None => lit "Unknown CPU"
           end
       | None => lit "Unknown CPU"
       end)).

Definition format_memory_size (size_kb : Z) : rstr :=
  let size_mb := fdiv_pow2 (f64_of_u64 size_kb) 10 in
  if f64_gt size_mb (F64Fin false 1 10) then
    let size_gb := fdiv_pow2 size_mb 10 in
    fmt_fixed2 size_gb ++ lit " GB"
  else fmt_fixed2 size_mb ++ lit " MB".

(** One iteration of the [/proc/meminfo] scan over [(total, available)]. *)
Definition kb_value (line : rstr) : option Z :=
  match nth_error (split_whitespace line) 1 with
  | Some value => parse_u64 value
  | None => None
  end.

Definition meminfo_step (acc : Z * Z) (line : rstr) : Z * Z :=
  let (total, available) := acc in
  if starts_with (lit "MemTotal:") line then
    match kb_value line with Some kbytes => (kbytes, available) | None => acc end
  else if starts_with (lit "MemAvailable:") line then
    match kb_value line with Some kbytes => (total, kbytes) | None => acc end
  else acc.

Definition meminfo_scan (r : option rstr) : Z * Z :=
  match r with
  | Some meminfo => fold_left meminfo_step (lines meminfo) (0, 0)
  | None => (0, 0)
  end.

Section Program.

(** Whether the binary is built with integer overflow checks (the default
    of a debug build); without them [u64] subtraction wraps around. *)
Variable overflow_checks : bool.

Definition sub_u64 (a b : Z) : M Z :=
  if b <=? a then ret (a - b)
  else if overflow_checks then panic "attempt to subtract with overflow"
  else ret (a - b + 2 ^ 64).

Definition get_memory_info : M (rstr * rstr) := call "get_memory_info" (
  r <- read_to_string (lit "/proc/meminfo") ;;
  let (total, available) := meminfo_scan r in
  used <- sub_u64 total available ;;
  ret (format_memory_size used, format_memory_size total)).

End Program.

(** *** GPU and driver probes *)

(** A [for line in ...lines()] loop that returns at the first line for
    which [f] produces a value. *)
Fixpoint find_map {A} (f : rstr -> option A) (ls : list rstr) : option A :=
  match ls with
  | [] => None
  | line :: rest => match f line with Some a => Some a | None => find_map f rest end
  end.

(** A [modinfo] output: the first [version:] line, text after the colon. *)
Definition modinfo_version (out : rstr) : option rstr :=
  find_map (fun line =>
    if starts_with (lit "version:") line then
      option_map trim (nth_error (split_char COLON line) 1)
    else None) (lines out).

(** A [glxinfo] output: from the first [Mesa] to the end of its line. *)
Definition mesa_version (out : rstr) : option rstr :=
  find_map (fun line =>
    if contains (lit "Mesa") line then
      match find_str (lit "Mesa") line with
      | Some idx =>
          let mesa_ver := skipn idx line in
          match find_char NL mesa_ver with
          | Some end_idx => Some (trim (firstn end_idx mesa_ver))
          | None => Some (trim mesa_ver)
          end
      | None => None
      end
    else None) (lines out).

(** The [glxinfo] fallback shared by the AMD and Intel sub-probes. *)
Definition glxinfo_fallback : M rstr :=
  o <- output (lit "glxinfo") [] ;;
  match o with
  | Some out => match mesa_version out with
                | Some v => ret v
                | None => ret (lit "Unknown")
                end
  | None => ret (lit "Unknown")
  end.

Definition modinfo_fallback (module : string) (fmt : rstr -> rstr) (k : M rstr) : M rstr :=
  o <- output (lit "modinfo") [lit module] ;;
  match o with
  | Some out => match modinfo_version out with
                | Some v => ret (fmt v)
                | None => k
                end
  | None => k
  end.

Definition get_nvidia_driver_version : M rstr := call "get_nvidia_driver_version" (
  o <- output (lit "nvidia-smi")
         [lit "--query-gpu=driver_version"; lit "--format=csv,noheader"] ;;
  let try_modinfo := modinfo_fallback "nvidia" (fun v => v) (ret (lit "Unknown")) in
  match o with
  | Some out => let version := trim out in
                match version with
                | [] => try_modinfo
                | _ => ret version
                end
  | None => try_modinfo
  end).

(** A module-gated [modinfo] attempt: only when [/sys/module/<module>]
    exists; otherwise, or without a [version:] line, continue with [k]. *)
Definition gated_modinfo (module : string) (label : string) (k : M rstr) : M rstr :=
  present <- path_exists (lit "/sys/module/" ++ lit module) ;;
  if present then modinfo_fallback module (fun v => lit label ++ lit " " ++ v) k
  else k.

Definition get_amd_driver_version : M rstr := call "get_amd_driver_version" (
  gated_modinfo "amdgpu" "AMDGPU" (gated_modinfo "radeon" "Radeon" glxinfo_fallback)).

Definition get_intel_driver_version : M rstr := call "get_intel_driver_version" (
  gated_modinfo "i915" "i915" glxinfo_fallback).

Definition is_gpu_line (line_lower : rstr) : bool :=
  contains (lit "vga") line_lower || contains (lit "display") line_lower
  || contains (lit "3d") line_lower || contains (lit "graphics") line_lower.

(** The first [lspci] line naming a graphics device and having a third
    colon-separated field: that field, and the lowered line. *)
Definition lspci_match (ls : list rstr) : option (rstr * rstr) :=
  find_map (fun line =>
    let line_lower := to_lowercase line in
    if is_gpu_line line_lower then
      option_map (fun gpu_model => (gpu_model, line_lower)) (nth_error (split_char COLON line) 2)
    else None) ls.

Definition driver_for (line_lower : rstr) : M rstr :=
  if contains (lit "nvidia") line_lower then get_nvidia_driver_version
  else if contains (lit "amd") line_lower || contains (lit "radeon") line_lower
          || contains (lit "ati") line_lower then get_amd_driver_version
  else if contains (lit "intel") line_lower then get_intel_driver_version
  else ret (lit "Unknown").

(** [lshw -C display]: the first [product:] line, text after the colon. *)
Definition lshw_product (out : rstr) : option rstr :=
  find_map (fun line =>
    if contains (lit "product:") line then
      option_map trim (nth_error (split_char COLON line) 1)
    else None) (lines out).

Definition get_gpu_info : M (rstr * rstr) := call "get_gpu_info" (
  o1 <- output (lit "lspci") [] ;;
  match option_map (fun out => lspci_match (lines out)) o1 with
  | Some (Some (gpu_model, line_lower)) =>
      driver_version <- driver_for line_lower ;;
      ret (trim gpu_model, driver_version)
  | _ =>
      o2 <- output (lit "nvidia-smi") [lit "--query-gpu=name"; lit "--format=csv,noheader"] ;;
      match o2 with
      | Some (_ :: _ as out) =>
          d <- get_nvidia_driver_version ;; ret (trim out, d)
      | _ =>
          o3 <- output (lit "lshw") [lit "-C"; lit "display"] ;;
          match option_map lshw_product o3 with
          | Some (Some gpu_name) => d <- get_amd_driver_version ;; ret (gpu_name, d)
          | _ => ret (lit "Unknown GPU", lit "Unknown")
          end
      end
  end).

(** ** Report assembly *)

Record SystemInfo := {
  hostname : rstr;
  os : rstr;
  kernel : rstr;
  uptime : rstr;
  shell : rstr;
  terminal : option rstr;
  packages : rstr;
  cpu : rstr;
  gpu : rstr;
  gpu_driver : rstr;
  memory : rstr * rstr
}.

(** The struct literal evaluates its field initialisers in source order;
    [gpu] and [gpu_driver] each call [get_gpu_info()]. *)
Definition get_system_info (overflow_checks : bool) : M SystemInfo :=
  h <- get_hostname ;;
  o <- get_os_info ;;
  k <- get_kernel_version ;;
  u <- get_uptime ;;
  s <- get_shell ;;
  t <- get_terminal ;;
  p <- get_package_count ;;
  c <- get_cpu_info ;;
  g1 <- get_gpu_info ;;
  g2 <- get_gpu_info ;;
  m <- get_memory_info overflow_checks ;;
  ret {| hostname := h; os := o; kernel := k; uptime := u; shell := s;
         terminal := t; packages := p; cpu := c; gpu := fst g1;
         gpu_driver := snd g2; memory := m |}.

(** ** ANSI-aware layout and rendering *)

(** One step of the [visible_length] loop over [(visible_len, in_escape)]. *)
Definition visible_step (st : nat * bool) (c : rchar) : nat * bool :=
  let (visible_len, in_escape) := st in
  if in_escape then (visible_len, negb (c =? CHAR_m))
  else if c =? ESC then (visible_len, true)
  else (S visible_len, false).

Definition visible_length (s : rstr) : nat :=
  fst (fold_left visible_step s (0%nat, false)).

(** [Iterator::max] on [usize]. *)
Definition iter_max (l : list nat) : option nat :=
  fold_left (fun acc x => match acc with
                          | None => Some x
                          | Some a => Some (Nat.max a x)
                          end) l None.

Definition max_logo_len (logo : list rstr) : nat :=
  match iter_max (map visible_length logo) with Some n => n | None => 0%nat end.

Definition padding : nat := 4.

Definition cell (ls : list rstr) (i : nat) : rstr :=
  if Nat.ltb i (List.length ls) then nth i ls [] else [].

(** The body of the row loop of [display_info]; the [usize] subtraction
    [max_logo_len - visible_logo_len] panics when it would go negative. *)
Definition print_row (logo info_lines : list rstr) (max_len i : nat) : M unit :=
  let logo_line := cell logo i in
  let info_line := cell info_lines i in
  let visible_logo_len := visible_length logo_line in
  if Nat.ltb max_len visible_logo_len then panic "attempt to subtract with overflow"
  else println (logo_line ++ repeat SPACE (max_len - visible_logo_len + padding)
                ++ info_line).

Fixpoint print_rows (logo info_lines : list rstr) (max_len : nat) (idx : list nat) : M unit :=
  match idx with
  | [] => ret tt
  | i :: rest => _ <- print_row logo info_lines max_len i ;;
                 print_rows logo info_lines max_len rest
  end.

(** The loop [for i in 0..logo.len().max(info_lines.len())]. *)
Definition layout (logo info_lines : list rstr) : M unit :=
  print_rows logo info_lines (max_logo_len logo)
    (seq 0 (Nat.max (List.length logo) (List.length info_lines))).

Definition whoami : M rstr := call "whoami" (
  u <- env_var (lit "USER") ;;
  match u with
  | Some v => ret v
  | None =>
      u2 <- env_var (lit "USERNAME") ;;
      match u2 with
      | Some v => ret v
      | None =>
          o <- output (lit "whoami") [] ;;
          match o with
          | None => panic "Failed to get username"
          | Some out => ret (trim out)
          end
      end
  end).

(** Splitting the logo file at each newline; a last line without newline
    is kept when non-empty. *)
Definition logo_lines (content : rstr) : list rstr :=
  let '(result, current_line) :=
    fold_left (fun (st : list rstr * rstr) (c : rchar) => let (res, cur) := st in
                           if c =? NL then (res ++ [cur], []) else (res, cur ++ [c]))
              content (@nil rstr, @nil rchar) in
  match current_line with
  | [] => result
  | _ => result ++ [current_line]
  end.

(** [read_logo_file]: [None] stands for its [Err]. *)
Definition read_logo_file : M (option (list rstr)) :=
  present <- path_exists (lit "resources/fumofetch_logo.txt") ;;
  r <- (if present then read_to_string (lit "resources/fumofetch_logo.txt")
        else read_to_string (lit "fumofetch_logo.txt")) ;;
  ret (option_map logo_lines r).

Definition fallback_logo : list rstr :=
  map lit ["      /\      "; "     /  \     "; "    /\   \    "; "   /      \   ";
           "  /   ,,   \  "; " /   |  |   \ "; "/_-''    ''-_\"; "             "]%string.

Definition green_label (label : string) (v : rstr) : rstr :=
  [ESC] ++ lit "[1;32m" ++ lit label ++ [ESC] ++ lit "[0m " ++ v.

Definition info_lines_of (user : rstr) (info : SystemInfo) : list rstr :=
  [ [ESC] ++ lit "[1;36m" ++ user ++ lit "@" ++ hostname info ++ [ESC] ++ lit "[0m";
    green_label "OS:" (os info);
    green_label "Kernel:" (kernel info);
    green_label "Uptime:" (uptime info);
    green_label "Shell:" (shell info);
    green_label "Terminal:" (unwrap_or (terminal info) (lit "Unknown"));
    green_label "Packages:" (packages info);
    green_label "CPU:" (cpu info);
    green_label "GPU:" (gpu info);
    green_label "GPU Driver:" (gpu_driver info);
    green_label "Memory:" (fst (memory info) ++ lit " / " ++ snd (memory info)) ].

Definition display_info (info : SystemInfo) : M unit :=
  r <- read_logo_file ;;
  let logo := match r with Some l => l | None => fallback_logo end in
  user <- whoami ;;
  let info_lines := info_lines_of user info in
  _ <- print ([ESC] ++ lit "[?25l") ;;
  _ <- layout logo info_lines ;;
  print ([ESC] ++ lit "[?25h").

Definition main (overflow_checks : bool) : M unit :=
  info <- get_system_info overflow_checks ;;
  display_info info.

(** ** Concrete worlds *)

Definition rstr_eqb (a b : rstr) : bool :=
  if list_eq_dec Z.eq_dec a b then true else false.

Fixpoint assoc {A} (k : rstr) (l : list (string * A)) : option A :=
  match l with
  | [] => None
  | (k', v) :: rest => if rstr_eqb (lit k') k then Some v else assoc k rest
  end.

(** A world from tables: file contents, environment variables, the stdout
    of each spawnable command line (program and arguments joined by single
    spaces) and the existing paths. *)
Definition cmd_key (prog : rstr) (args : list rstr) : rstr :=
  fold_left (fun acc a => acc ++ [SPACE] ++ a) args prog.

Definition mk_world (files envs cmds : list (string * string)) (paths : list string) : World :=
  {| w_read := fun p => option_map lit (assoc p files);
     w_env := fun k => option_map lit (assoc k envs);
     w_spawn := fun prog args => option_map lit (assoc (cmd_key prog args) cmds);
     w_exists := fun p => existsb (fun q => rstr_eqb (lit q) p) paths |}.

Definition nl : string := String (ascii_of_nat 10) EmptyString.
Definition dq : string := String (ascii_of_nat 34) EmptyString.

Definition sample_meminfo : string :=
  ("MemTotal:        8000000 kB" ++ nl ++ "MemFree: 1 kB" ++ nl
   ++ "MemAvailable:    2000000 kB" ++ nl)%string.

(** A small Debian machine with an Intel GPU. *)
Definition sample_files : list (string * string) :=
  [("/etc/hostname", "fumo" ++ nl);
   ("/etc/os-release", "NAME=Debian" ++ nl ++ "PRETTY_NAME=" ++ dq ++ "Debian GNU/Linux 12" ++ dq ++ nl);
   ("/proc/uptime", "90061.52 1234.00" ++ nl);
   ("/proc/cpuinfo", "processor	: 0" ++ nl ++ "model name	: Intel(R) Core(TM) i5" ++ nl);
   ("/proc/meminfo", sample_meminfo)]%string.

Definition sample_envs : list (string * string) :=
  [("SHELL", "/usr/bin/zsh"); ("TERM", "xterm-256color"); ("USER", "reimu")]%string.

Definition sample_cmds : list (string * string) :=
  [("uname -r", "6.1.0-13-amd64" ++ nl);
   ("dpkg --get-selections", "bash	install" ++ nl ++ "zsh	install" ++ nl);
   ("lspci", "00:02.0 VGA compatible controller: Intel Corporation UHD Graphics 620" ++ nl);
   ("modinfo i915", "filename: i915.ko" ++ nl ++ "version: 1.6.0" ++ nl)]%string.

Definition sample_paths : list string := ["/sys/module/i915"]%string.

Definition sample_world : World := mk_world sample_files sample_envs sample_cmds sample_paths.

(** The same machine with a file and a variable the program never reads. *)
Definition sample_world_extra : World :=
  mk_world (("/etc/motd", "hello") :: sample_files)%string
           (("EDITOR", "vi") :: sample_envs)%string sample_cmds sample_paths.

(** The same machine with a [/proc/uptime] of [-1] seconds. *)
Definition negative_uptime_world : World :=
  mk_world (("/proc/uptime", "-1 0") :: sample_files)%string sample_envs sample_cmds sample_paths.

(** The same machine with a [/proc/meminfo] lacking [MemTotal]. *)
Definition no_memtotal_world : World :=
  mk_world (("/proc/meminfo", "MemAvailable: 100 kB" ++ nl) :: sample_files)%string
           sample_envs sample_cmds sample_paths.

(** A [/proc/uptime] whose first token is [inf]. *)
Definition inf_uptime_world : World :=
  mk_world [("/proc/uptime", "inf 0")]%string [] [] [].

(** A [/proc/meminfo] whose total (about 2^60 kB) is not a double. *)
Definition huge_meminfo_world : World :=
  mk_world [("/proc/meminfo", "MemTotal: 1152921504606978049 kB" ++ nl
                               ++ "MemAvailable: 0 kB" ++ nl)]%string [] [] [].

(** ** Definitions following the spec's wording (for refinement claims) *)

(** The rest of a string after the first [m] (nothing if there is none). *)
Definition after_m (s : rstr) : rstr :=
  match find_char CHAR_m s with
  | Some i => skipn (S i) s
  | None => []
  end.

(** Visible width as the spec words it: an escape sequence runs from the
    escape character to the next [m], both excluded; every other character
    counts 1. *)
Fixpoint width_fuel (fuel : nat) (s : rstr) : nat :=
  match fuel with
  | O => 0
  | S f => match s with
           | [] => 0
           | c :: s' => if c =? ESC then width_fuel f (after_m s')
                        else S (width_fuel f s')
           end
  end.

Definition visible_width_spec (s : rstr) : nat := width_fuel (List.length s) s.

(** Two-column layout as the spec words it: the widest logo line, and per
    row the logo cell, [maxLogoWidth - visibleWidth(cell) + 4] spaces and
    the info cell, for [max(logoLineCount, infoLineCount)] rows. *)
Definition max_width_spec (logo : list rstr) : nat :=
  fold_right Nat.max 0%nat (map visible_width_spec logo).

Definition row_spec (logo info_lines : list rstr) (i : nat) : rstr :=
  let logo_cell := nth i logo [] in
  logo_cell ++ repeat SPACE (max_width_spec logo - visible_width_spec logo_cell + 4)
  ++ nth i info_lines [].

Definition layout_spec (logo info_lines : list rstr) : list rstr :=
  map (row_spec logo info_lines) (seq 0 (Nat.max (List.length logo) (List.length info_lines))).

(** The package-count probe as the spec words it: the package managers in
    their fixed order; the first one that can be invoked gives
    ["{N} ({label})"] with [N] its number of output lines; [Unknown] when
    none can.  Also returns the spawn attempts made. *)
Definition package_managers : list (string * list string * string) :=
  [("dpkg", ["--get-selections"], "apt"); ("pacman", ["-Q"], "pacman");
   ("rpm", ["-qa"], "rpm")]%string.

Fixpoint first_invocable (w : World) (l : list (string * list string * string))
  : rstr * list event :=
  match l with
  | [] => (lit "Unknown", [])
  | (prog, args, label) :: rest =>
      let attempt := EvSpawn (lit prog) (map lit args) in
      match w_spawn w (lit prog) (map lit args) with
      | Some out =>
          (fmt_int (Z.of_nat (List.length (lines out))) ++ lit " (" ++ lit label ++ lit ")",
           [attempt])
      | None => let (res, evs) := first_invocable w rest in (res, attempt :: evs)
      end
  end.

(** Memory formatting as the spec words it, in exact arithmetic: the
    kibibyte count divided by 1024 gives mebibytes; above 1024 of them it is
    divided by 1024 again and shown in GB, else in MB; two decimals (ties to
    even, as [{:.2}] does). *)
Definition fixed2_ratio (p q : Z) : rstr :=
  let n := round_ne_div (100 * p) q in
  fmt_int (n / 100) ++ [46] ++ two_digits (n mod 100).

Definition format_memory_size_spec (size_kb : Z) : rstr :=
  if 1024 * 1024 <? size_kb then fixed2_ratio size_kb (1024 * 1024) ++ lit " GB"
  else fixed2_ratio size_kb 1024 ++ lit " MB".

(** ** Auxiliary notions for the properties of the code *)

(** [s] neither starts nor ends with a character satisfying [p]. *)
Definition edge_ok (p : rchar -> bool) (s : rstr) : bool :=
  match s with
  | [] => true
  | c :: _ => negb (p c) && negb (p (last s c))
  end.

(** Applies [f] to the last element of a list. *)
Fixpoint map_last {A} (f : A -> A) (l : list A) : list A :=
  match l with
  | [] => []
  | [x] => [f x]
  | x :: l' => x :: map_last f l'
  end.

(** Whether an event is a write to stdout. *)
Definition is_out (e : event) : bool := match e with EvOut _ => true | _ => false end.

(** The logo [display_info] uses: the one read from file, else the
    built-in fallback. *)
Definition logo_of (w : World) : list rstr :=
  match snd (read_logo_file w) with Ret (Some l) => l | _ => fallback_logo end.

(** ** Proofs *)

Module Layout.

Lemma visible_fold_shift (s : rstr) (k : nat) (b : bool) :
  fst (fold_left visible_step s (k, b)) = (k + fst (fold_left visible_step s (0%nat, b)))%nat.
Proof.
  revert k b; induction s as [|c s IH]; intros k b; simpl; [lia|].
  destruct b; [rewrite IH; rewrite (IH 0%nat); lia|].
  destruct (c =? ESC); [rewrite IH; rewrite (IH 0%nat); lia|].
  rewrite IH, (IH 1%nat); lia.
Qed.

Lemma after_m_length (s : rstr) : (List.length (after_m s) <= List.length s)%nat.
Proof.
  unfold after_m; destruct (find_char CHAR_m s); [|simpl; lia].
  rewrite length_skipn; lia.
Qed.

Lemma visible_in_escape (s : rstr) (k : nat) :
  fst (fold_left visible_step s (k, true)) = fst (fold_left visible_step (after_m s) (k, false)).
Proof.
  revert k; induction s as [|c s IH]; intros k; [reflexivity|].
  unfold after_m; cbn [fold_left visible_step find_char negb].
  destruct (c =? CHAR_m) eqn:E; cbn [negb].
  - reflexivity.
  - rewrite IH. unfold after_m.
    destruct (find_char CHAR_m s); reflexivity.
Qed.

Lemma width_fuel_visible (n : nat) (s : rstr) :
  (List.length s <= n)%nat -> width_fuel n s = visible_length s.
Proof.
  revert s; induction n as [|n IH]; intros s Hl.
  - destruct s; [reflexivity|simpl in Hl; lia].
  - destruct s as [|c s]; [reflexivity|]. simpl in Hl.
    unfold visible_length; simpl.
    destruct (c =? ESC).
    + rewrite visible_in_escape, IH; [reflexivity|].
      pose proof (after_m_length s); lia.
    + rewrite visible_fold_shift, IH; [reflexivity|lia].
Qed.

Lemma visible_length_spec (s : rstr) : visible_length s = visible_width_spec s.
Proof. unfold visible_width_spec; rewrite width_fuel_visible; lia. Qed.

Lemma fold_max_shift (l : list nat) (a : nat) :
  fold_left Nat.max l a = Nat.max a (fold_right Nat.max 0%nat l).
Proof.
  revert a; induction l as [|x l IH]; intros a; simpl; [lia|].
  rewrite IH; lia.
Qed.

Lemma iter_max_fold (l : list nat) :
  match iter_max l with Some n => n | None => 0%nat end = fold_right Nat.max 0%nat l.
Proof.
  unfold iter_max.
  destruct l as [|x0 l]; [reflexivity|]. cbn [fold_left].
  assert (H : forall a, fold_left (fun acc x => match acc with
                                                | None => Some x
                                                | Some a => Some (Nat.max a x)
                                                end) l (Some a)
                        = Some (fold_left Nat.max l a)).
  { induction l as [|x l IH]; intros a; simpl; [reflexivity|apply IH]. }
  rewrite H, fold_max_shift; simpl; lia.
Qed.

Lemma max_logo_len_spec (logo : list rstr) : max_logo_len logo = max_width_spec logo.
Proof.
  unfold max_logo_len, max_width_spec; rewrite iter_max_fold.
  induction logo as [|l logo IH]; simpl; [reflexivity|].
  rewrite visible_length_spec, IH; reflexivity.
Qed.

Lemma in_le_fold_max (l : list nat) (x : nat) :
  In x l -> (x <= fold_right Nat.max 0 l)%nat.
Proof.
  induction l as [|y l IH]; simpl; [tauto|].
  intros [<-|H]; [lia|specialize (IH H); lia].
Qed.

Lemma cell_nth (ls : list rstr) (i : nat) : cell ls i = nth i ls [].
Proof.
  unfold cell; destruct (Nat.ltb i (List.length ls)) eqn:E; [reflexivity|].
  apply Nat.ltb_ge in E; rewrite nth_overflow; auto.
Qed.

(** No logo cell is wider than the widest logo line. *)
Lemma cell_width_le (logo : list rstr) (i : nat) :
  (visible_length (cell logo i) <= max_logo_len logo)%nat.
Proof.
  rewrite cell_nth, max_logo_len_spec, visible_length_spec.
  unfold max_width_spec.
  destruct (Nat.lt_ge_cases i (List.length logo)) as [H|H].
  - apply in_le_fold_max, in_map, nth_In; exact H.
  - rewrite nth_overflow by exact H. apply Nat.le_0_l.
Qed.

Lemma print_rows_trace (logo info_lines : list rstr) (idx : list nat) (w : World) :
  print_rows logo info_lines (max_logo_len logo) idx w
  = (map (fun i => EvOut (row_spec logo info_lines i ++ [NL])) idx, Ret tt).
Proof.
  induction idx as [|i idx IH]; [reflexivity|].
  cbn [print_rows map]. unfold bind, print_row.
  pose proof (cell_width_le logo i) as Hw.
  destruct (Nat.ltb (max_logo_len logo) (visible_length (cell logo i))) eqn:E.
  { apply Nat.ltb_lt in E; lia. }
  unfold println, print; rewrite IH.
  unfold row_spec; rewrite !cell_nth, max_logo_len_spec, visible_length_spec.
  reflexivity.
Qed.

End Layout.

(** ** Claims on the ANSI-aware layout *)

(** C5: the visible width counts exactly the characters outside escape
    sequences (from the escape character to the next [m], both excluded),
    each as 1; so the width of ["ESC[1;32mOS:ESC[0m"] is 3 and that of
    ["plain"] is 5. *)
Theorem visible_length_counts_outside_escapes :
  (forall s, visible_length s = visible_width_spec s)
  /\ visible_length ([ESC] ++ lit "[1;32mOS:" ++ [ESC] ++ lit "[0m") = 3%nat
  /\ visible_length (lit "plain") = 5%nat.
Proof.
  split; [exact Layout.visible_length_spec|].
  split; vm_compute; reflexivity.
Qed.

(** C6: the layout prints exactly [max(logoLineCount, infoLineCount)]
    rows, row [i] being the logo cell (empty past the logo), then
    [maxLogoWidth - visibleWidth(cell) + 4] spaces, then the info cell
    (empty past the info block).  A 2-line logo of widths 5 and 3 beside
    3 info lines gives 3 rows, the last one padded with 5 + 4 spaces. *)
Theorem layout_emits_padded_rows :
  (forall logo info_lines w,
     layout logo info_lines w
     = (map (fun r => EvOut (r ++ [NL])) (layout_spec logo info_lines), Ret tt)
     /\ List.length (layout_spec logo info_lines)
        = Nat.max (List.length logo) (List.length info_lines))
  /\ layout [lit "abcde"; lit "abc"] [lit "i1"; lit "i2"; lit "i3"] sample_world
     = ([EvOut (lit "abcde    i1" ++ [NL]); EvOut (lit "abc      i2" ++ [NL]);
         EvOut (lit "         i3" ++ [NL])], Ret tt).
Proof.
  split; [|vm_compute; reflexivity].
  intros logo info_lines w; split.
  - unfold layout, layout_spec. rewrite Layout.print_rows_trace, map_map. reflexivity.
  - unfold layout_spec. rewrite length_map, length_seq. reflexivity.
Qed.

(** C10: the padding subtraction never underflows: every logo cell,
    including the empty cell past the end of the logo, is at most as wide
    as the widest logo line, and the row loop never panics. *)
Theorem layout_padding_never_underflows :
  forall logo info_lines w,
    (forall i, (visible_length (cell logo i) <= max_logo_len logo)%nat)
    /\ snd (layout logo info_lines w) = Ret tt.
Proof.
  intros logo info_lines w; split; [exact (Layout.cell_width_le logo)|].
  unfold layout; rewrite Layout.print_rows_trace; reflexivity.
Qed.

(** ** Claims on the field probes *)

Module Probes.

Lemma count_label_not_unknown (out : rstr) (label : string) :
  count_label out label <> lit "Unknown".
Proof.
  unfold count_label. rewrite !app_assoc. intros H.
  apply (f_equal (@rev Z)) in H. rewrite rev_app_distr in H.
  simpl in H. discriminate H.
Qed.

Lemma round_ne_div_1 (a : Z) : round_ne_div a 1 = a.
Proof. unfold round_ne_div. rewrite Z.div_1_r, Z.mod_1_r. reflexivity. Qed.

Lemma round_ne_div_scale (a b c : Z) :
  0 < b -> 0 < c -> round_ne_div (a * c) (b * c) = round_ne_div a b.
Proof.
  intros Hb Hc. unfold round_ne_div.
  rewrite Z.div_mul_cancel_r, Z.mul_mod_distr_r by lia.
  pose proof (Z.mod_pos_bound a b Hb).
  destruct (Z.ltb_spec (b * c) (2 * (a mod b * c))), (Z.ltb_spec b (2 * (a mod b)));
    try nia.
  destruct (Z.ltb_spec (2 * (a mod b * c)) (b * c)), (Z.ltb_spec (2 * (a mod b)) b);
    try nia; reflexivity.
Qed.

(** Below [2^53] the conversion [as f64] is exact. *)
Lemma f64_of_u64_exact (k : Z) :
  0 < k < 2 ^ 53 ->
  f64_of_u64 k = F64Fin false (k * 2 ^ (52 - Z.log2 k)) (Z.log2 k - 52).
Proof.
  intros Hk.
  assert (HL : 0 <= Z.log2 k < 53).
  { split; [apply Z.log2_nonneg|]. apply Z.log2_lt_pow2; lia. }
  pose proof (Z.log2_spec k ltac:(lia)) as [Hlo Hhi].
  assert (Hm : k * 2 ^ (52 - Z.log2 k) < 2 ^ 53).
  { replace (2 ^ 53) with (2 ^ Z.succ (Z.log2 k) * 2 ^ (52 - Z.log2 k)).
    - apply Z.mul_lt_mono_pos_r; [apply Z.pow_pos_nonneg; lia | exact Hhi].
    - rewrite <- Z.pow_add_r by lia. f_equal; lia. }
  assert (Hp : 0 < 2 ^ (52 - Z.log2 k)) by (apply Z.pow_pos_nonneg; lia).
  assert (H1024 : 2 ^ 53 <= 2 ^ 1024) by (apply Z.pow_le_mono_r; lia).
  unfold f64_of_u64, round_to_f64, floor_log2_q.
  replace (k =? 0) with false by (symmetry; apply Z.eqb_neq; lia).
  rewrite Z.log2_1, Z.sub_0_r.
  replace (0 <=? Z.log2 k) with true by (symmetry; apply Z.leb_le; lia).
  replace (1 * 2 ^ Z.log2 k <=? k) with true by (symmetry; apply Z.leb_le; lia).
  replace (Z.max (-1074) (Z.log2 k - 52)) with (Z.log2 k - 52) by lia.
  destruct (Z.leb_spec 0 (Z.log2 k - 52)).
  - assert (E : Z.log2 k = 52) by lia. rewrite E in *.
    replace (52 - 52) with 0 in * by lia.
    rewrite Z.pow_0_r, Z.mul_1_l, Z.mul_1_r, round_ne_div_1.
    rewrite ?Z.mul_1_r.
    match goal with |- context [?a <=? ?b] => destruct (Z.leb_spec a b) end;
      [lia|reflexivity].
  - replace (- (Z.log2 k - 52)) with (52 - Z.log2 k) by lia.
    rewrite round_ne_div_1.
    replace (2 ^ (1024 - (Z.log2 k - 52)) <=? k * 2 ^ (52 - Z.log2 k)) with false.
    + reflexivity.
    + symmetry; apply Z.leb_gt.
      assert (2 ^ 1024 <= 2 ^ (1024 - (Z.log2 k - 52))) by (apply Z.pow_le_mono_r; lia).
      lia.
Qed.

Lemma format_memory_size_exact (k : Z) :
  0 <= k < 2 ^ 53 -> format_memory_size k = format_memory_size_spec k.
Proof.
  intros Hk. destruct (Z.eq_dec k 0) as [->|Hk0]; [vm_compute; reflexivity|].
  unfold format_memory_size, format_memory_size_spec.
  rewrite f64_of_u64_exact by lia.
  set (j := 52 - Z.log2 k).
  assert (HL : 0 <= Z.log2 k < 53).
  { split; [apply Z.log2_nonneg|]. apply Z.log2_lt_pow2; lia. }
  assert (Hj : 0 <= j <= 52) by (unfold j; lia).
  replace (Z.log2 k - 52) with (- j) by (unfold j; lia).
  assert (Hp : 0 < 2 ^ j) by (apply Z.pow_pos_nonneg; lia).
  unfold fdiv_pow2, f64_gt.
  replace (Z.min (- j - 10) 10) with (- j - 10) by lia.
  replace (10 - (- j - 10)) with (j + 20) by lia.
  replace (- j - 10 - (- j - 10)) with 0 by lia.
  unfold signed_mant. rewrite Z.pow_0_r, Z.mul_1_r, Z.mul_1_l, Z.pow_add_r by lia.
  replace (2 ^ j * 2 ^ 20 <? k * 2 ^ j) with (1024 * 1024 <? k).
  2:{ destruct (Z.ltb_spec (2 ^ j * 2 ^ 20) (k * 2 ^ j)), (Z.ltb_spec (1024 * 1024) k);
      try reflexivity; cbn in *; nia. }
  unfold fmt_fixed2, round_scaled, fixed2_ratio.
  replace (0 <=? - j - 10 - 10) with false by (symmetry; apply Z.leb_gt; lia).
  replace (0 <=? - j - 10) with false by (symmetry; apply Z.leb_gt; lia).
  replace (- (- j - 10 - 10)) with (20 + j) by lia.
  replace (- (- j - 10)) with (10 + j) by lia.
  rewrite !Z.pow_add_r by lia.
  replace (k * 2 ^ j * 100) with ((100 * k) * 2 ^ j) by ring.
  rewrite !round_ne_div_scale by (apply Z.pow_pos_nonneg; lia).
  reflexivity.
Qed.

Lemma digits_value_nonneg (acc : Z) (s : rstr) (v : Z) :
  0 <= acc -> digits_value acc s = Some v -> 0 <= v.
Proof.
  revert acc; induction s as [|c s IH]; intros acc Hacc H; cbn [digits_value] in H.
  - injection H as <-; lia.
  - destruct (is_digit c) eqn:E; [|discriminate].
    unfold is_digit in E. apply andb_prop in E as [E1 E2].
    apply Z.leb_le in E1. eapply IH; [|exact H]. lia.
Qed.

Lemma parse_u64_nonneg (s : rstr) (v : Z) : parse_u64 s = Some v -> 0 <= v.
Proof.
  unfold parse_u64. intros H.
  destruct (match s with 43 :: r => r | _ => s end) as [|c r]; [discriminate|].
  destruct (digits_value 0 (c :: r)) eqn:E; [|discriminate].
  destruct (z <=? U64_MAX); [|discriminate]. injection H as <-.
  eapply digits_value_nonneg; [|exact E]; lia.
Qed.

(** The [(total, available)] scan keeps, for each field, the value of the
    last line with that prefix whose second token parses. *)
Definition last_kb (pre : rstr) (ls : list rstr) (d : Z) : Z :=
  fold_left (fun acc l => if starts_with pre l then
                            match kb_value l with Some v => v | None => acc end
                          else acc) ls d.

Lemma starts_with_firstn (pre s : rstr) :
  starts_with pre s = true -> firstn (List.length pre) s = pre.
Proof.
  revert s; induction pre as [|p pre IH]; intros s H; [reflexivity|].
  destruct s as [|c s]; [discriminate|].
  cbn in H |- *. apply andb_prop in H as [Hp Hs].
  apply Z.eqb_eq in Hp as ->. rewrite IH by exact Hs. reflexivity.
Qed.

Lemma memtotal_not_memavailable (l : rstr) :
  starts_with (lit "MemTotal:") l = true -> starts_with (lit "MemAvailable:") l = false.
Proof.
  intros Ht. destruct (starts_with (lit "MemAvailable:") l) eqn:Ea; [|reflexivity].
  apply starts_with_firstn in Ht, Ea.
  assert (E : firstn 4 (firstn (List.length (lit "MemTotal:")) l)
              = firstn 4 (firstn (List.length (lit "MemAvailable:")) l)).
  { rewrite !firstn_firstn. reflexivity. }
  rewrite Ht, Ea in E. vm_compute in E. discriminate E.
Qed.

Lemma meminfo_fold (ls : list rstr) (x y : Z) :
  fold_left meminfo_step ls (x, y)
  = (last_kb (lit "MemTotal:") ls x, last_kb (lit "MemAvailable:") ls y).
Proof.
  revert x y; induction ls as [|l ls IH]; intros x y; [reflexivity|].
  unfold last_kb in *; cbn [fold_left]. rewrite <- IH. f_equal.
  unfold meminfo_step.
  destruct (starts_with (lit "MemTotal:") l) eqn:Et.
  - rewrite (memtotal_not_memavailable l Et).
    destruct (kb_value l); reflexivity.
  - destruct (starts_with (lit "MemAvailable:") l); [|reflexivity].
    destruct (kb_value l); reflexivity.
Qed.

Lemma last_kb_none (pre : rstr) (ls : list rstr) (d : Z) :
  filter (starts_with pre) ls = [] -> last_kb pre ls d = d.
Proof.
  revert d; induction ls as [|l ls IH]; intros d H; [reflexivity|].
  cbn in H. unfold last_kb; cbn [fold_left].
  destruct (starts_with pre l); [discriminate|]. apply IH, H.
Qed.

Lemma last_kb_unique (pre : rstr) (ls : list rstr) (l1 : rstr) (v d : Z) :
  filter (starts_with pre) ls = [l1] -> kb_value l1 = Some v -> last_kb pre ls d = v.
Proof.
  revert d; induction ls as [|l ls IH]; intros d H Hv; [discriminate|].
  cbn in H. unfold last_kb; cbn [fold_left].
  destruct (starts_with pre l) eqn:E.
  - injection H as -> Hrest. rewrite Hv. apply last_kb_none, Hrest.
  - apply IH; assumption.
Qed.

End Probes.

(** C7: the package-count probe spawns [dpkg --get-selections], then
    [pacman -Q], then [rpm -qa], stopping at the first one that can be
    invoked, whatever its exit status, and answers ["{N} (label)"] with [N]
    the number of lines of its output; it answers [Unknown] exactly when
    none of the three can be invoked. *)
Theorem package_count_first_invocable :
  forall w : World,
    get_package_count w
    = (EvCall "get_package_count" :: snd (first_invocable w package_managers),
       Ret (fst (first_invocable w package_managers)))
    /\ (fst (first_invocable w package_managers) = lit "Unknown"
        <-> w_spawn w (lit "dpkg") [lit "--get-selections"] = None
            /\ w_spawn w (lit "pacman") [lit "-Q"] = None
            /\ w_spawn w (lit "rpm") [lit "-qa"] = None).
Proof.
  intros w.
  pose proof (Probes.count_label_not_unknown) as Hne.
  unfold get_package_count, first_invocable, package_managers, call, bind, output, ret.
  cbn [map].
  destruct (w_spawn w (lit "dpkg") [lit "--get-selections"]) as [o1|];
    [|destruct (w_spawn w (lit "pacman") [lit "-Q"]) as [o2|];
      [|destruct (w_spawn w (lit "rpm") [lit "-qa"]) as [o3|]]];
    cbn [fst snd app]; (split; [reflexivity|]);
    split; intros H; try (exfalso; eapply Hne; exact H);
    try (destruct H as (? & ? & ?); discriminate); auto.
Qed.

(** C4 (as corrected): for a [/proc/meminfo] with exactly one [MemTotal:]
    line and one [MemAvailable:] line whose second tokens parse as [t] and
    [a] with [a <= t], and a total below [2^53] kB, the probe returns
    [t - a] and [t] each formatted from the exact quotient by 1024 (GB with
    a second division by 1024 above 1024 MB, else MB), two decimals. *)
Theorem get_memory_info_exact_below_2_53 :
  forall (overflow_checks : bool) (w : World) (s lt la ttok atok : rstr) (t a : Z),
    w_read w (lit "/proc/meminfo") = Some s ->
    filter (starts_with (lit "MemTotal:")) (lines s) = [lt] ->
    nth_error (split_whitespace lt) 1 = Some ttok -> parse_u64 ttok = Some t ->
    filter (starts_with (lit "MemAvailable:")) (lines s) = [la] ->
    nth_error (split_whitespace la) 1 = Some atok -> parse_u64 atok = Some a ->
    a <= t -> t < 2 ^ 53 ->
    get_memory_info overflow_checks w
    = ([EvCall "get_memory_info"; EvRead (lit "/proc/meminfo")],
       Ret (format_memory_size_spec (t - a), format_memory_size_spec t)).
Proof.
  intros b w s lt la ttok atok t a Hr Ht Htt Hpt Ha Hat Hpa Hle Hbig.
  pose proof (Probes.parse_u64_nonneg _ _ Hpt) as Ht0.
  pose proof (Probes.parse_u64_nonneg _ _ Hpa) as Ha0.
  unfold get_memory_info, call, bind, read_to_string, meminfo_scan.
  rewrite Hr, Probes.meminfo_fold.
  rewrite (Probes.last_kb_unique _ _ lt t) by (unfold kb_value; rewrite ?Htt; assumption).
  rewrite (Probes.last_kb_unique _ _ la a) by (unfold kb_value; rewrite ?Hat; assumption).
  unfold sub_u64. replace (a <=? t) with true by (symmetry; apply Z.leb_le; exact Hle).
  unfold ret.
  rewrite !Probes.format_memory_size_exact by lia.
  reflexivity.
Qed.

Lemma get_memory_info_exact_below_2_53_witness :
  get_memory_info true sample_world
  = ([EvCall "get_memory_info"; EvRead (lit "/proc/meminfo")],
     Ret (format_memory_size_spec (8000000 - 2000000), format_memory_size_spec 8000000))
  /\ format_memory_size_spec (8000000 - 2000000) = lit "5.72 GB"
  /\ format_memory_size_spec 8000000 = lit "7.63 GB".
Proof.
  split; [|split; vm_compute; reflexivity].
  apply (get_memory_info_exact_below_2_53 true sample_world (lit sample_meminfo)
           (lit "MemTotal:        8000000 kB") (lit "MemAvailable:    2000000 kB")
           (lit "8000000") (lit "2000000") 8000000 2000000);
    (vm_compute; reflexivity) || (vm_compute; discriminate).
Defined.

(** C4 as stated fails for a total of [2^60 + 2^17 + 1] kB: [as f64] rounds
    it to [2^60 + 2^17], so the code prints [1099511627776.12 GB] where the
    exact quotient gives [1099511627776.13 GB]. *)
Lemma get_memory_info_huge_total_counterexample :
  ~ (forall (overflow_checks : bool) (w : World) (s lt la ttok atok : rstr) (t a : Z),
       w_read w (lit "/proc/meminfo") = Some s ->
       filter (starts_with (lit "MemTotal:")) (lines s) = [lt] ->
       nth_error (split_whitespace lt) 1 = Some ttok -> parse_u64 ttok = Some t ->
       filter (starts_with (lit "MemAvailable:")) (lines s) = [la] ->
       nth_error (split_whitespace la) 1 = Some atok -> parse_u64 atok = Some a ->
       a <= t ->
       get_memory_info overflow_checks w
       = ([EvCall "get_memory_info"; EvRead (lit "/proc/meminfo")],
          Ret (format_memory_size_spec (t - a), format_memory_size_spec t))).
Proof.
  intros H.
  assert (E := H true huge_meminfo_world
                 (lit ("MemTotal: 1152921504606978049 kB" ++ nl ++ "MemAvailable: 0 kB" ++ nl))
                 (lit "MemTotal: 1152921504606978049 kB") (lit "MemAvailable: 0 kB")
                 (lit "1152921504606978049") (lit "0") 1152921504606978049 0).
  assert (E' : get_memory_info true huge_meminfo_world
               = ([EvCall "get_memory_info"; EvRead (lit "/proc/meminfo")],
                  Ret (format_memory_size_spec (1152921504606978049 - 0),
                       format_memory_size_spec 1152921504606978049)))
    by (apply E; (vm_compute; reflexivity) || (vm_compute; discriminate)).
  vm_compute in E'. discriminate E'.
Qed.

Definition count_calls (f : string) (tr : list event) : nat :=
  List.length (filter (fun e => match e with
                                | EvCall g => if string_dec f g then true else false
                                | _ => false
                                end) tr).

Definition count_spawns (prog : rstr) (tr : list event) : nat :=
  List.length (filter (fun e => match e with
                                | EvSpawn p _ => rstr_eqb prog p
                                | _ => false
                                end) tr).

(** C1 (code bug): with [MemAvailable] present and [MemTotal] absent, the
    subtraction [total - available] is [0 - 100]: with overflow checks the
    probe panics; without them [used] wraps to [2^64 - 100] kB. *)
Theorem get_memory_info_missing_total_underflows :
  snd (get_memory_info true no_memtotal_world) = Panic "attempt to subtract with overflow"
  /\ snd (get_memory_info false no_memtotal_world)
     = Ret (lit "17592186044416.00 GB", lit "0.00 MB").
Proof. split; vm_compute; reflexivity. Qed.

(** C2 (code bug): one run of the report assembler enters [get_gpu_info]
    twice (and spawns [lspci] twice), while every other probe runs once. *)
Theorem get_system_info_runs_gpu_probe_twice :
  count_calls "get_gpu_info" (fst (get_system_info true sample_world)) = 2%nat
  /\ count_spawns (lit "lspci") (fst (get_system_info true sample_world)) = 2%nat
  /\ forallb (fun f => Nat.eqb (count_calls f (fst (get_system_info true sample_world))) 1)
       ["get_hostname"; "get_os_info"; "get_kernel_version"; "get_uptime"; "get_shell";
        "get_terminal"; "get_package_count"; "get_cpu_info"; "get_memory_info"]%string
     = true.
Proof. repeat split; vm_compute; reflexivity. Qed.

(** C3 (code bug): a first token [inf] parses as a non-negative double,
    and [Duration::from_secs_f64] then panics instead of the probe giving a
    formatted uptime; finite values are decomposed as the spec says, e.g.
    90000, 3661 and 59 seconds. *)
Theorem get_uptime_infinite_seconds_panics :
  snd (get_uptime inf_uptime_world) = Panic "can not convert float seconds to Duration"
  /\ parse_f64 (lit "inf") = Some (F64Inf false)
  /\ format_uptime 90000 = lit "1d 1h 0m"
  /\ format_uptime 3661 = lit "1h 1m"
  /\ format_uptime 59 = lit "0m".
Proof. repeat split; vm_compute; reflexivity. Qed.

(** C8 (code bug): besides the kernel-version and username failures, a
    malformed [/proc/uptime] aborts the run in every build, and a
    [/proc/meminfo] without [MemTotal] aborts it in a build with overflow
    checks, although the sample machine itself runs to completion. *)
Theorem main_aborts_on_malformed_proc_files :
  (forall overflow_checks,
     snd (main overflow_checks sample_world) = Ret tt
     /\ snd (main overflow_checks negative_uptime_world)
        = Panic "can not convert float seconds to Duration")
  /\ snd (main true no_memtotal_world) = Panic "attempt to subtract with overflow".
Proof.
  split; [intros []; split; vm_compute; reflexivity|vm_compute; reflexivity].
Qed.

(** ** Determinism of the report *)

(** The inputs the field probes consult. *)
Definition probe_files : list rstr :=
  map lit ["/etc/hostname"; "/etc/os-release"; "/proc/uptime"; "/proc/cpuinfo";
           "/proc/meminfo"]%string.

Definition probe_env : list rstr := map lit ["SHELL"; "TERM"]%string.

Definition probe_commands : list (rstr * list rstr) :=
  map (fun '(p, a) => (lit p, map lit a))
    [("uname", ["-r"]); ("dpkg", ["--get-selections"]); ("pacman", ["-Q"]);
     ("rpm", ["-qa"]); ("lspci", []);
     ("nvidia-smi", ["--query-gpu=name"; "--format=csv,noheader"]);
     ("nvidia-smi", ["--query-gpu=driver_version"; "--format=csv,noheader"]);
     ("lshw", ["-C"; "display"]); ("modinfo", ["nvidia"]); ("modinfo", ["amdgpu"]);
     ("modinfo", ["radeon"]); ("modinfo", ["i915"]); ("glxinfo", [])]%string.

Definition probe_paths : list rstr :=
  map lit ["/sys/module/amdgpu"; "/sys/module/radeon"; "/sys/module/i915"]%string.

Definition cmd_eqb (prog : rstr) (args : list rstr) (c : rstr * list rstr) : bool :=
  rstr_eqb prog (fst c) && (if list_eq_dec (list_eq_dec Z.eq_dec) args (snd c) then true else false).

Lemma existsb_rstr_In (p : rstr) (l : list rstr) :
  existsb (rstr_eqb p) l = true -> In p l.
Proof.
  induction l as [|q l IH]; simpl; [discriminate|].
  unfold rstr_eqb at 1. destruct (list_eq_dec Z.eq_dec p q) as [->|_]; simpl; auto.
Qed.

Module Determinism.

Section Agree.

Variables w1 w2 : World.

Hypothesis same_files : forall p, existsb (rstr_eqb p) probe_files = true -> w_read w1 p = w_read w2 p.
Hypothesis same_env : forall k, existsb (rstr_eqb k) probe_env = true -> w_env w1 k = w_env w2 k.
Hypothesis same_cmds : forall prog args,
  existsb (cmd_eqb prog args) probe_commands = true -> w_spawn w1 prog args = w_spawn w2 prog args.
Hypothesis same_paths : forall p, existsb (rstr_eqb p) probe_paths = true -> w_exists w1 p = w_exists w2 p.

Definition same {A} (m : M A) : Prop := m w1 = m w2.

Lemma same_ret {A} (a : A) : same (ret a).
Proof. reflexivity. Qed.

Lemma same_panic {A} (msg : string) : same (@panic A msg).
Proof. reflexivity. Qed.

Lemma same_bind {A B} (m : M A) (k : A -> M B) :
  same m -> (forall a, same (k a)) -> same (bind m k).
Proof.
  unfold same, bind; intros Hm Hk. rewrite Hm.
  destruct (m w2) as [t [a|msg]]; [rewrite Hk|]; reflexivity.
Qed.

Lemma same_call {A} (f : string) (m : M A) : same m -> same (call f m).
Proof. unfold same, call; intros H; rewrite H; reflexivity. Qed.

Lemma same_read p : existsb (rstr_eqb p) probe_files = true -> same (read_to_string p).
Proof. unfold same, read_to_string; intros H; rewrite same_files by exact H; reflexivity. Qed.

Lemma same_env_var k : existsb (rstr_eqb k) probe_env = true -> same (env_var k).
Proof. unfold same, env_var; intros H; rewrite same_env by exact H; reflexivity. Qed.

Lemma same_output prog args :
  existsb (cmd_eqb prog args) probe_commands = true -> same (output prog args).
Proof. unfold same, output; intros H; rewrite same_cmds by exact H; reflexivity. Qed.

Lemma same_path p : existsb (rstr_eqb p) probe_paths = true -> same (path_exists p).
Proof. unfold same, path_exists; intros H; rewrite same_paths by exact H; reflexivity. Qed.

Create HintDb same_db.
#[local] Hint Resolve same_ret same_panic : same_db.

Ltac same_step :=
  match goal with
  | |- same (call _ _) => apply same_call
  | |- same (bind _ _) => apply same_bind; [|intros ?]
  | |- same (ret _) => apply same_ret
  | |- same (panic _) => apply same_panic
  | |- same (read_to_string _) => apply same_read; vm_compute; reflexivity
  | |- same (env_var _) => apply same_env_var; vm_compute; reflexivity
  | |- same (output _ _) => apply same_output; vm_compute; reflexivity
  | |- same (path_exists _) => apply same_path; vm_compute; reflexivity
  | |- same (let _ := _ in _) => cbv zeta
  | |- same (match ?x with _ => _ end) => destruct x
  | |- same (if ?x then _ else _) => destruct x
  | |- same _ => solve [eauto with same_db]
  end.

Ltac same_tac := repeat same_step.

Lemma same_glxinfo : same glxinfo_fallback.
Proof. unfold glxinfo_fallback; same_tac. Qed.
#[local] Hint Resolve same_glxinfo : same_db.

Lemma same_modinfo module fmt k :
  existsb (cmd_eqb (lit "modinfo") [lit module]) probe_commands = true ->
  same k -> same (modinfo_fallback module fmt k).
Proof.
  intros Hc Hk. unfold modinfo_fallback.
  apply same_bind; [apply same_output, Hc|intros o].
  destruct o as [out|]; [destruct (modinfo_version out)|]; auto with same_db.
Qed.

Lemma same_gated module label k :
  existsb (rstr_eqb (lit "/sys/module/" ++ lit module)) probe_paths = true ->
  existsb (cmd_eqb (lit "modinfo") [lit module]) probe_commands = true ->
  same k -> same (gated_modinfo module label k).
Proof.
  intros Hp Hc Hk. unfold gated_modinfo.
  apply same_bind; [apply same_path, Hp|intros []]; [apply same_modinfo|]; assumption.
Qed.

Lemma same_nvidia : same get_nvidia_driver_version.
Proof.
  unfold get_nvidia_driver_version. same_tac;
    apply same_modinfo; first [vm_compute; reflexivity | same_tac].
Qed.

Lemma same_amd : same get_amd_driver_version.
Proof.
  unfold get_amd_driver_version. apply same_call.
  apply same_gated; [vm_compute; reflexivity|vm_compute; reflexivity|].
  apply same_gated; [vm_compute; reflexivity|vm_compute; reflexivity|].
  exact same_glxinfo.
Qed.

Lemma same_intel : same get_intel_driver_version.
Proof.
  unfold get_intel_driver_version. apply same_call.
  apply same_gated; [vm_compute; reflexivity|vm_compute; reflexivity|].
  exact same_glxinfo.
Qed.
#[local] Hint Resolve same_nvidia same_amd same_intel : same_db.

Lemma same_gpu : same get_gpu_info.
Proof. unfold get_gpu_info, driver_for. same_tac. Qed.

Lemma same_memory overflow_checks : same (get_memory_info overflow_checks).
Proof. unfold get_memory_info, sub_u64. same_tac. Qed.

#[local] Hint Resolve same_gpu same_memory : same_db.

(** C9: two runs of the report assembler in worlds that agree on every
    file, environment variable, command output and path the probes consult
    produce the same report (and the same trace). *)
Theorem get_system_info_deterministic (overflow_checks : bool) :
  get_system_info overflow_checks w1 = get_system_info overflow_checks w2.
Proof.
  change (same (get_system_info overflow_checks)).
  unfold get_system_info, get_hostname, get_os_info, get_kernel_version, get_uptime,
    get_shell, get_terminal, get_package_count, get_cpu_info.
  same_tac.
Qed.

End Agree.

End Determinism.

Lemma get_system_info_deterministic_witness :
  get_system_info true sample_world = get_system_info true sample_world_extra.
Proof.
  apply (Determinism.get_system_info_deterministic sample_world sample_world_extra).
  - intros p Hp. apply existsb_rstr_In in Hp. vm_compute in Hp.
    repeat (destruct Hp as [<-|Hp]; [vm_compute; reflexivity|]). destruct Hp.
  - intros k Hk. apply existsb_rstr_In in Hk. vm_compute in Hk.
    repeat (destruct Hk as [<-|Hk]; [vm_compute; reflexivity|]). destruct Hk.
  - intros prog args _. reflexivity.
  - intros p _. reflexivity.
Defined.

(** ** Properties of the code beyond the claims *)

Module Trim.

Lemma drop_while_spec (p : rchar -> bool) (s : rstr) :
  exists pre, s = pre ++ drop_while p s /\ forallb p pre = true
  /\ (drop_while p s = [] \/ exists c r, drop_while p s = c :: r /\ p c = false).
Proof.
  induction s as [|c s IH]; [exists []; simpl; auto|].
  cbn [drop_while]. destruct (p c) eqn:E.
  - destruct IH as (pre & H1 & H2 & H3). exists (c :: pre).
    simpl; rewrite E, H2; split; [rewrite <- H1|]; auto.
  - exists []; simpl; split; [reflexivity|split; [reflexivity|right; eauto]].
Qed.

Lemma trim_by_edge_ok (p : rchar -> bool) (s : rstr) : edge_ok p (trim_by p s) = true.
Proof.
  unfold trim_by.
  destruct (drop_while_spec p s) as (_ & _ & _ & [Ht|(c & r & Ht & Hc)]);
    rewrite Ht; [reflexivity|].
  destruct (drop_while_spec p (rev (c :: r))) as (pre & Hs & Hpre & [Hu|(x & y & Hu & Hx)]).
  - exfalso. rewrite Hu, app_nil_r in Hs.
    assert (Hin : In c pre) by (rewrite <- Hs; simpl; apply in_or_app; right; left; reflexivity).
    rewrite forallb_forall in Hpre. rewrite (Hpre c Hin) in Hc. discriminate.
  - rewrite Hu in Hs |- *.
    assert (E : rev (x :: y) ++ rev pre = c :: r).
    { rewrite <- rev_app_distr, <- Hs, rev_involutive. reflexivity. }
    cbn [rev] in E |- *.
    destruct (rev y ++ [x]) as [|h t] eqn:Ey.
    + destruct (rev y); discriminate.
    + cbn [app] in E. injection E as -> _. unfold edge_ok. rewrite <- Ey, last_last, Hx, Hc. reflexivity.
Qed.

Lemma trim_edge_ok (s : rstr) : edge_ok is_whitespace (trim s) = true.
Proof. apply trim_by_edge_ok. Qed.

End Trim.

Module Split.

Lemma split_char_nonnil (sep : rchar) (s : rstr) : split_char sep s <> [].
Proof.
  destruct s as [|c s]; [discriminate|]. cbn [split_char].
  destruct (c =? sep); [discriminate|]. destruct (split_char sep s); discriminate.
Qed.

Lemma last_indep {A} (l : list A) (d d' : A) : l <> [] -> last l d = last l d'.
Proof.
  induction l as [|x l IH]; intros H; [contradiction|].
  destruct l as [|y l]; [reflexivity|]. apply IH. discriminate.
Qed.

Lemma map_last_cons {A} (f : A -> A) (x : A) (l : list A) :
  l <> [] -> map_last f (x :: l) = x :: map_last f l.
Proof. destruct l; [contradiction|reflexivity]. Qed.

Lemma last_map_last {A} (f : A -> A) (l : list A) (d : A) :
  l <> [] -> last (map_last f l) d = f (last l d).
Proof.
  induction l as [|x l IH]; intros H; [contradiction|].
  destruct l as [|y l]; [reflexivity|].
  rewrite map_last_cons by discriminate.
  assert (Hc : forall (z : A) m, m <> [] -> last (z :: m) d = last m d)
    by (intros z [|? ?] Hm; [contradiction|reflexivity]).
  rewrite Hc; [apply IH; discriminate|].
  destruct l; discriminate.
Qed.

Lemma split_char_snoc (sep c : rchar) (s : rstr) :
  split_char sep (s ++ [c])
  = if c =? sep then split_char sep s ++ [[]]
    else map_last (fun p => p ++ [c]) (split_char sep s).
Proof.
  induction s as [|d s IH].
  - simpl. destruct (c =? sep); reflexivity.
  - cbn [app split_char]. rewrite IH.
    pose proof (split_char_nonnil sep s) as Hn.
    destruct (d =? sep), (c =? sep).
    + reflexivity.
    + rewrite map_last_cons by exact Hn. reflexivity.
    + destruct (split_char sep s); [contradiction|reflexivity].
    + destruct (split_char sep s) as [|p ps]; [contradiction|].
      destruct ps as [|q ps]; reflexivity.
Qed.

Lemma split_char_last (sep : rchar) (s : rstr) :
  let r := last (split_char sep s) [] in
  ~ In sep r /\ (s = r \/ exists pre, s = pre ++ sep :: r).
Proof.
  induction s as [|c s IH] using rev_ind; [simpl; auto|].
  cbv zeta in *. rewrite split_char_snoc.
  destruct (Z.eqb_spec c sep) as [->|Hc].
  - rewrite last_last. split; [simpl; auto|]. right; exists s; reflexivity.
  - rewrite last_map_last by apply split_char_nonnil.
    destruct IH as [IH1 IH2]. split.
    + rewrite in_app_iff; simpl; intuition.
    + destruct IH2 as [E|(pre & E)]; [left|right; exists pre];
        rewrite E at 1; [reflexivity|rewrite <- app_assoc; reflexivity].
Qed.




End Split.

Module Find.

Lemma find_first {A} (f : A -> bool) (pre : list A) (x : A) (rest : list A) :
  forallb (fun l => negb (f l)) pre = true -> f x = true ->
  find f (pre ++ x :: rest) = Some x.
Proof.
  induction pre as [|y pre IH]; intros Hp Hx; simpl; [rewrite Hx; reflexivity|].
  cbn in Hp. apply andb_prop in Hp as [Hy Hp].
  destruct (f y); [discriminate|]. apply IH; assumption.
Qed.


Lemma starts_with_app (pre v : rstr) : starts_with pre (pre ++ v) = true.
Proof. induction pre as [|c pre IH]; [reflexivity|]. simpl. rewrite Z.eqb_refl. exact IH. Qed.

Lemma replacen_prefix (pat v : rstr) : replacen_empty_1 pat (pat ++ v) = v.
Proof.
  unfold replacen_empty_1.
  replace (find_str pat (pat ++ v)) with (Some 0%nat).
  - simpl. rewrite skipn_app, skipn_all, Nat.sub_diag. reflexivity.
  - pose proof (starts_with_app pat v) as H.
    destruct (pat ++ v); simpl; rewrite H; reflexivity.
Qed.

End Find.



(** X: the OS probe takes the first line of [/etc/os-release] starting with
    [PRETTY_NAME=] and returns the rest of that line with every leading and
    trailing double quote removed. *)
Theorem get_os_info_first_pretty_name (w : World) (s v : rstr) (pre rest : list rstr) :
  w_read w (lit "/etc/os-release") = Some s ->
  lines s = pre ++ (lit "PRETTY_NAME=" ++ v) :: rest ->
  forallb (fun l => negb (starts_with (lit "PRETTY_NAME=") l)) pre = true ->
  snd (get_os_info w) = Ret (trim_matches_quote v)
  /\ edge_ok (Z.eqb QUOTE) (trim_matches_quote v) = true.
Proof.
  intros Hr Hl Hp. split; [|apply Trim.trim_by_edge_ok].
  unfold get_os_info, call, bind, read_to_string, ret. rewrite Hr, Hl.
  rewrite Find.find_first by (exact Hp || apply Find.starts_with_app).
  rewrite Find.replacen_prefix. reflexivity.
Qed.

Lemma get_os_info_first_pretty_name_witness :
  snd (get_os_info sample_world) = Ret (lit "Debian GNU/Linux 12")
  /\ edge_ok (Z.eqb QUOTE) (lit "Debian GNU/Linux 12") = true.
Proof.
  change (lit "Debian GNU/Linux 12") with (trim_matches_quote (lit (dq ++ "Debian GNU/Linux 12" ++ dq))).
  apply (get_os_info_first_pretty_name sample_world
           (lit ("NAME=Debian" ++ nl ++ "PRETTY_NAME=" ++ dq ++ "Debian GNU/Linux 12" ++ dq ++ nl))
           (lit (dq ++ "Debian GNU/Linux 12" ++ dq)) [lit "NAME=Debian"] []);
    vm_compute; reflexivity.
Defined.

(** X: the shell probe returns the part of [$SHELL] (or of [Unknown] when
    the variable is unset) after its last ['/']: a text with no ['/'] that
    is either the whole value or preceded in it by a ['/']; a value ending
    in ['/'] gives the empty string. *)
Theorem get_shell_last_component (w : World) :
  exists r, snd (get_shell w) = Ret r /\ ~ In SLASH r
  /\ (unwrap_or (w_env w (lit "SHELL")) (lit "Unknown") = r
      \/ exists pre, unwrap_or (w_env w (lit "SHELL")) (lit "Unknown") = pre ++ SLASH :: r).
Proof.
  set (v := unwrap_or (w_env w (lit "SHELL")) (lit "Unknown")).
  exists (last (split_char SLASH v) []).
  destruct (Split.split_char_last SLASH v) as [H1 H2].
  split; [|split; [exact H1|destruct H2 as [E|E]; [left; exact E|right; exact E]]].
  rewrite (Split.last_indep _ [] (lit "Unknown")) by apply Split.split_char_nonnil.
  reflexivity.
Qed.



Module Mon.

Lemma snd_bind_ret {A B} (m : M A) (k : A -> M B) (w : World) (b : B) :
  snd (bind m k w) = Ret b -> exists a, snd (m w) = Ret a /\ snd (k a w) = Ret b.
Proof.
  unfold bind. destruct (m w) as [t [a|msg]]; [|discriminate].
  destruct (k a w) as [t2 o2] eqn:E. cbn. intros ->. exists a. rewrite E. auto.
Qed.

Lemma fst_bind {A B} (m : M A) (k : A -> M B) (w : World) :
  fst (bind m k w) = fst (m w) ++ match snd (m w) with Ret a => fst (k a w) | Panic _ => [] end.
Proof.
  unfold bind. destruct (m w) as [t [a|msg]]; [|rewrite app_nil_r; reflexivity].
  cbn [fst snd]. destruct (k a w) eqn:E; reflexivity.
Qed.

Lemma find_map_some {A} (f : rstr -> option A) (ls : list rstr) (a : A) :
  find_map f ls = Some a -> exists l, In l ls /\ f l = Some a.
Proof.
  induction ls as [|l ls IH]; [discriminate|]. cbn [find_map].
  destruct (f l) eqn:E.
  - intros [= <-]. exists l. split; [left|]; auto.
  - intros H. destruct (IH H) as (l' & Hin & Hf). exists l'. split; [right|]; auto.
Qed.

End Mon.

Module Contains.

Lemma contains_app (n s : rstr) : contains n s = true <-> exists x y, s = x ++ n ++ y.
Proof.
  unfold contains. split.
  - destruct (find_str n s) eqn:E; [|discriminate]. intros _. revert n0 E.
    induction s as [|c s IH]; intros i E.
    + cbn in E. destruct (starts_with n []) eqn:Es; [|discriminate].
      destruct n; [|discriminate]. exists [], []; reflexivity.
    + cbn in E. destruct (starts_with n (c :: s)) eqn:Es.
      * exists []. exists (skipn (List.length n) (c :: s)).
        rewrite <- (firstn_skipn (List.length n) (c :: s)) at 1.
        rewrite (Probes.starts_with_firstn _ _ Es). reflexivity.
      * destruct (find_str n s) as [j|] eqn:Ej; [|discriminate].
        destruct (IH j eq_refl) as (x & y & ->). exists (c :: x), y. reflexivity.
  - intros (x & y & ->). induction x as [|c x IH].
    + pose proof (Find.starts_with_app n y) as H. simpl.
      destruct (n ++ y); simpl; rewrite H; reflexivity.
    + cbn [app find_str]. destruct (starts_with n (c :: x ++ n ++ y)); [reflexivity|].
      destruct (find_str n (x ++ n ++ y)); [reflexivity|discriminate].
Qed.

Lemma contains_infix (a n b s : rstr) :
  contains (a ++ n ++ b) s = true -> contains n s = true.
Proof.
  rewrite !contains_app. intros (x & y & ->). exists (x ++ a), (b ++ y).
  rewrite <- !app_assoc. reflexivity.
Qed.

End Contains.

Module Gpu.

(** Every event of a gated [modinfo] attempt is the [modinfo] spawn, made
    only when the module directory exists, or an event of the
    continuation. *)
Lemma gated_modinfo_events (module label : string) (k : M rstr) (w : World) (e : event) :
  In e (fst (gated_modinfo module label k w)) ->
  (e = EvSpawn (lit "modinfo") [lit module]
   /\ w_exists w (lit "/sys/module/" ++ lit module) = true)
  \/ In e (fst (k w)).
Proof.
  unfold gated_modinfo, modinfo_fallback, path_exists.
  rewrite Mon.fst_bind. cbn [fst snd app].
  destruct (w_exists w (lit "/sys/module/" ++ lit module)) eqn:Ex; [|intros H; right; exact H].
  rewrite Mon.fst_bind. unfold output. cbn [fst snd].
  destruct (w_spawn w (lit "modinfo") [lit module]) as [out|];
    [destruct (modinfo_version out)|]; cbn [fst snd app In ret];
    (intros [<-|H]; [left; split; reflexivity|]); try contradiction; right; exact H.
Qed.

Lemma glxinfo_events (w : World) (e : event) :
  In e (fst (glxinfo_fallback w)) -> e = EvSpawn (lit "glxinfo") [].
Proof.
  unfold glxinfo_fallback. rewrite Mon.fst_bind. unfold output. cbn [fst snd].
  destruct (w_spawn w (lit "glxinfo") []) as [out|]; [destruct (mesa_version out)|];
    cbn [fst snd app In ret]; intros [<-|[]]; reflexivity.
Qed.

End Gpu.


Module NoPanic.

(** [m] returns a value in every world. *)
Definition nopanic {A} (m : M A) : Prop := forall w, exists a, snd (m w) = Ret a.

Lemma np_ret {A} (a : A) : nopanic (ret a).
Proof. intros w; exists a; reflexivity. Qed.

Lemma np_bind {A B} (m : M A) (k : A -> M B) :
  nopanic m -> (forall a, nopanic (k a)) -> nopanic (bind m k).
Proof.
  intros Hm Hk w. destruct (Hm w) as [a Ha]. destruct (Hk a w) as [b Hb].
  exists b. unfold bind. destruct (m w) as [t o]. cbn in Ha. subst o.
  destruct (k a w) as [t2 o2]. cbn in Hb |- *. exact Hb.
Qed.

Lemma np_call {A} (f : string) (m : M A) : nopanic m -> nopanic (call f m).
Proof.
  intros Hm w. destruct (Hm w) as [a Ha]. exists a. unfold call.
  destruct (m w); exact Ha.
Qed.

Lemma np_output prog args : nopanic (output prog args).
Proof. intros w; eexists; reflexivity. Qed.

Lemma np_path p : nopanic (path_exists p).
Proof. intros w; eexists; reflexivity. Qed.

Lemma snd_bind_of_ret {A B} (m : M A) (k : A -> M B) (w : World) (a : A) :
  snd (m w) = Ret a -> snd (bind m k w) = snd (k a w).
Proof.
  unfold bind. destruct (m w) as [t o]. cbn. intros ->.
  destruct (k a w); reflexivity.
Qed.

Lemma snd_call {A} (f : string) (m : M A) (w : World) : snd (call f m w) = snd (m w).
Proof. unfold call. destruct (m w); reflexivity. Qed.

Ltac np :=
  repeat match goal with
  | |- nopanic (call _ _) => apply np_call
  | |- nopanic (bind _ _) => apply np_bind; [|intros ?]
  | |- nopanic (ret _) => apply np_ret
  | |- nopanic (output _ _) => apply np_output
  | |- nopanic (path_exists _) => apply np_path
  | |- nopanic (let _ := _ in _) => cbv zeta
  | |- nopanic (match ?x with _ => _ end) => destruct x
  | |- nopanic (if ?x then _ else _) => destruct x
  end.

Lemma np_glxinfo : nopanic glxinfo_fallback.
Proof. unfold glxinfo_fallback. np. Qed.

Lemma np_modinfo module fmt k : nopanic k -> nopanic (modinfo_fallback module fmt k).
Proof. intros Hk. unfold modinfo_fallback. np; exact Hk. Qed.

Lemma np_gated module label k : nopanic k -> nopanic (gated_modinfo module label k).
Proof. intros Hk. unfold gated_modinfo. np; [apply np_modinfo|]; exact Hk. Qed.

Lemma np_nvidia : nopanic get_nvidia_driver_version.
Proof. unfold get_nvidia_driver_version. np; apply np_modinfo, np_ret. Qed.

Lemma np_driver_for line_lower : nopanic (driver_for line_lower).
Proof.
  unfold driver_for, get_amd_driver_version, get_intel_driver_version.
  repeat match goal with |- nopanic (if ?x then _ else _) => destruct x end;
    try apply np_nvidia; try apply np_ret;
    apply np_call; repeat apply np_gated; apply np_glxinfo.
Qed.

End NoPanic.

(** X: the GPU probe never panics, and the GPU name it returns (from
    [lspci], [nvidia-smi], [lshw] or the [Unknown GPU] default) never starts
    or ends with whitespace. *)
Theorem get_gpu_info_name_trimmed (w : World) :
  exists g d, snd (get_gpu_info w) = Ret (g, d) /\ edge_ok is_whitespace g = true.
Proof.
  unfold get_gpu_info. rewrite NoPanic.snd_call.
  rewrite (NoPanic.snd_bind_of_ret _ _ w (w_spawn w (lit "lspci") [])) by reflexivity.
  destruct (option_map (fun out => lspci_match (lines out)) (w_spawn w (lit "lspci") []))
    as [[[gpu_model line_lower]|]|].
  1: { destruct (NoPanic.np_driver_for line_lower w) as [dv Hd].
    rewrite (NoPanic.snd_bind_of_ret _ _ w dv) by exact Hd.
    exists (trim gpu_model), dv. split; [reflexivity|apply Trim.trim_edge_ok]. }
    all: rewrite (NoPanic.snd_bind_of_ret _ _ w
                    (w_spawn w (lit "nvidia-smi") [lit "--query-gpu=name"; lit "--format=csv,noheader"]))
           by reflexivity.
    all: destruct (w_spawn w (lit "nvidia-smi") [lit "--query-gpu=name"; lit "--format=csv,noheader"])
           as [[|c out]|]; cbv beta iota.
    all: try (destruct (NoPanic.np_nvidia w) as [dv Hd];
              rewrite (NoPanic.snd_bind_of_ret _ _ w dv) by exact Hd;
              eexists _, dv; split; [reflexivity|apply Trim.trim_edge_ok]).
    all: rewrite (NoPanic.snd_bind_of_ret _ _ w (w_spawn w (lit "lshw") [lit "-C"; lit "display"]))
           by reflexivity.
    all: destruct (option_map lshw_product (w_spawn w (lit "lshw") [lit "-C"; lit "display"]))
           as [[gpu_name|]|] eqn:El; cbv beta iota.
    all: try (exists (lit "Unknown GPU"), (lit "Unknown"); split; [reflexivity|vm_compute; reflexivity]).
    all: destruct (NoPanic.np_call "get_amd_driver_version" _
                    (NoPanic.np_gated "amdgpu" "AMDGPU" _
                      (NoPanic.np_gated "radeon" "Radeon" _ NoPanic.np_glxinfo)) w) as [dv Hd].
    all: rewrite (NoPanic.snd_bind_of_ret _ _ w dv) by exact Hd.
    all: exists gpu_name, dv; split; [reflexivity|].
    all: destruct (w_spawn w (lit "lshw") [lit "-C"; lit "display"]) as [o|]; [|discriminate].
    all: cbn [option_map] in El; injection El as El.
    all: unfold lshw_product in El; apply Mon.find_map_some in El as (l & _ & Hl).
    all: destruct (contains (lit "product:") l); [|discriminate].
    all: destruct (nth_error (split_char COLON l) 1) as [p|]; [|discriminate].
    all: cbn [option_map] in Hl; injection Hl as <-; apply Trim.trim_edge_ok.
Qed.

(** X: the AMD and Intel driver probes run [modinfo] on a kernel module
    only when its directory under [/sys/module] exists; apart from that
    they only run [glxinfo]. *)
Theorem driver_probes_gate_modinfo (w : World) :
  Forall (fun e => e = EvCall "get_amd_driver_version"
                   \/ (e = EvSpawn (lit "modinfo") [lit "amdgpu"]
                       /\ w_exists w (lit "/sys/module/amdgpu") = true)
                   \/ (e = EvSpawn (lit "modinfo") [lit "radeon"]
                       /\ w_exists w (lit "/sys/module/radeon") = true)
                   \/ e = EvSpawn (lit "glxinfo") [])
         (fst (get_amd_driver_version w))
  /\ Forall (fun e => e = EvCall "get_intel_driver_version"
                      \/ (e = EvSpawn (lit "modinfo") [lit "i915"]
                          /\ w_exists w (lit "/sys/module/i915") = true)
                      \/ e = EvSpawn (lit "glxinfo") [])
            (fst (get_intel_driver_version w)).
Proof.
  split; apply Forall_forall; intros e He.
  - unfold get_amd_driver_version, call in He.
    destruct (gated_modinfo "amdgpu" "AMDGPU" (gated_modinfo "radeon" "Radeon" glxinfo_fallback) w)
      as [t o] eqn:E.
    destruct He as [<-|He]; [left; reflexivity|right].
    change t with (fst (t, o)) in He. rewrite <- E in He.
    apply Gpu.gated_modinfo_events in He as [He|He]; [left; exact He|right].
    apply Gpu.gated_modinfo_events in He as [He|He]; [left; exact He|right].
    exact (Gpu.glxinfo_events w e He).
  - unfold get_intel_driver_version, call in He.
    destruct (gated_modinfo "i915" "i915" glxinfo_fallback w) as [t o] eqn:E.
    destruct He as [<-|He]; [left; reflexivity|right].
    change t with (fst (t, o)) in He. rewrite <- E in He.
    apply Gpu.gated_modinfo_events in He as [He|He]; [left; exact He|right].
    exact (Gpu.glxinfo_events w e He).
Qed.

(** X: every [lspci] line whose lower-cased text contains [compatible]
    (as the usual [VGA compatible controller] does) and not [nvidia] is
    sent to the AMD driver probe, since [compatible] contains [ati]; an
    Intel VGA line thus never reaches the Intel driver probe. *)
Theorem driver_for_compatible_line_probes_amd (line_lower : rstr) :
  contains (lit "compatible") line_lower = true ->
  contains (lit "nvidia") line_lower = false ->
  driver_for line_lower = get_amd_driver_version.
Proof.
  intros Hc Hn. unfold driver_for. rewrite Hn.
  assert (Ha : contains (lit "ati") line_lower = true).
  { apply (Contains.contains_infix (lit "comp") _ (lit "ble")). exact Hc. }
  rewrite Ha, orb_true_r. reflexivity.
Qed.

Lemma driver_for_compatible_line_probes_amd_witness :
  driver_for (to_lowercase (lit "00:02.0 VGA compatible controller: Intel Corporation UHD Graphics 620"))
  = get_amd_driver_version.
Proof. apply driver_for_compatible_line_probes_amd; vm_compute; reflexivity. Defined.

Module Uptime.

Lemma round_ne_div_bounds (a b : Z) :
  0 < b -> a / b <= round_ne_div a b <= a / b + 1.
Proof.
  intros Hb. unfold round_ne_div.
  destruct (b <? 2 * (a mod b)); [lia|].
  destruct (2 * (a mod b) <? b); [lia|].
  destruct (Z.even (a / b)); lia.
Qed.

Lemma floor_log2_q_le (p q B : Z) :
  0 < p -> 0 < q -> 0 <= B -> p < q * 2 ^ B -> floor_log2_q p q <= B - 1.
Proof.
  intros Hp Hq HB Hlt. unfold floor_log2_q.
  pose proof (Z.log2_spec p Hp) as [Hp1 Hp2].
  pose proof (Z.log2_spec q Hq) as [Hq1 Hq2].
  pose proof (Z.log2_nonneg p). pose proof (Z.log2_nonneg q).
  assert (He : Z.log2 p - Z.log2 q <= B).
  { assert (Hpow : 2 ^ Z.log2 p < 2 ^ (Z.log2 q + 1 + B)).
    { rewrite !Z.pow_add_r by lia. rewrite Z.pow_1_r.
      assert (0 < 2 ^ B) by (apply Z.pow_pos_nonneg; lia).
      rewrite Z.pow_succ_r in Hq2 by lia.
      nia. }
    apply Z.pow_lt_mono_r_iff in Hpow; lia. }
  destruct (Z.leb_spec 0 (Z.log2 p - Z.log2 q)).
  - destruct (Z.leb_spec (q * 2 ^ (Z.log2 p - Z.log2 q)) p); [|lia].
    destruct (Z.eq_dec (Z.log2 p - Z.log2 q) B) as [E|E]; [|lia].
    rewrite E in *. lia.
  - destruct (q <=? p * 2 ^ (- (Z.log2 p - Z.log2 q))); lia.
Qed.

Lemma take_digits_digits (d r : rstr) :
  forallb is_digit d = true -> take_digits (d ++ r) = (d ++ fst (take_digits r), snd (take_digits r)).
Proof.
  induction d as [|c d IH]; intros H; [simpl; destruct (take_digits r); reflexivity|].
  cbn in H. apply andb_prop in H as [Hc H].
  cbn [app take_digits]. rewrite Hc, IH by exact H. reflexivity.
Qed.

Lemma digits_fold_shift (d : rstr) (acc : Z) :
  fold_left (fun acc c => 10 * acc + (c - 48)) d acc
  = acc * 10 ^ Z.of_nat (List.length d) + fold_left (fun acc c => 10 * acc + (c - 48)) d 0.
Proof.
  revert acc; induction d as [|c d IH]; intros acc; [simpl; lia|].
  cbn [fold_left List.length]. rewrite IH, (IH (10 * 0 + (c - 48))).
  rewrite Nat2Z.inj_succ, Z.pow_succ_r by lia. ring.
Qed.

Lemma digits_to_Z_app (a b : rstr) :
  digits_to_Z (a ++ b) = digits_to_Z a * 10 ^ Z.of_nat (List.length b) + digits_to_Z b.
Proof. unfold digits_to_Z. rewrite fold_left_app, digits_fold_shift. reflexivity. Qed.

Lemma digits_to_Z_range (d : rstr) :
  forallb is_digit d = true -> 0 <= digits_to_Z d < 10 ^ Z.of_nat (List.length d).
Proof.
  induction d as [|c d IH] using rev_ind; intros H; [unfold digits_to_Z; simpl; lia|].
  rewrite forallb_app in H. apply andb_prop in H as [Hd Hc].
  cbn in Hc. rewrite andb_true_r in Hc. unfold is_digit in Hc.
  apply andb_prop in Hc as [Hc1 Hc2]. apply Z.leb_le in Hc1, Hc2.
  rewrite digits_to_Z_app, length_app, Nat2Z.inj_add. cbn [List.length].
  specialize (IH Hd). unfold digits_to_Z at 2. cbn.
  rewrite Z.pow_add_r by lia. rewrite Z.pow_1_r. lia.
Qed.

(** [N.FF] parses to the double nearest to [NFF / 100]. *)
Lemma parse_f64_kernel_format (ip fp : rstr) :
  ip <> [] -> forallb is_digit ip = true -> forallb is_digit fp = true ->
  List.length fp = 2%nat ->
  parse_f64 (ip ++ 46 :: fp) = Some (round_to_f64 false (digits_to_Z (ip ++ fp)) 100).
Proof.
  intros Hne Hip Hfp Hl.
  destruct ip as [|c ip']; [contradiction|].
  assert (Hc : is_digit c = true) by (cbn in Hip; apply andb_prop in Hip; tauto).
  assert (Hs : (c =? 45) = false /\ (c =? 43) = false).
  { unfold is_digit in Hc. apply andb_prop in Hc as [H1 H2]. apply Z.leb_le in H1.
    split; apply Z.eqb_neq; lia. }
  unfold parse_f64. cbn [app]. destruct Hs as [-> ->]. cbn [orb].
  unfold parse_decimal.
  change (c :: ip' ++ 46 :: fp) with ((c :: ip') ++ 46 :: fp).
  change (c :: ip' ++ fp) with ((c :: ip') ++ fp).
  rewrite (take_digits_digits (c :: ip')) by exact Hip.
  cbn [take_digits]. replace (is_digit 46) with false by reflexivity. cbn [fst snd].
  rewrite app_nil_r.
  pose proof (take_digits_digits fp [] Hfp) as Hf. rewrite app_nil_r in Hf. cbn in Hf.
  rewrite app_nil_r in Hf. rewrite Hf. cbn [fst snd].
  rewrite Hl. cbn [List.length Nat.add Nat.eqb].
  replace (List.length ip' + 2 =? 0)%nat with false by (symmetry; apply Nat.eqb_neq; lia).
  reflexivity.
Qed.

(** A value [N.FF] with [N < 2^45] converts to a [Duration] of exactly [N]
    whole seconds: the double is at least [N] and stays far enough below
    [N + 1] for the rounding to nanoseconds not to reach it. *)
Lemma from_secs_kernel_format (N F : Z) :
  0 <= N < 2 ^ 45 -> 0 <= F < 100 ->
  exists nanos, from_secs_f64 (round_to_f64 false (N * 100 + F) 100) = Some (N, nanos).
Proof.
  intros HN HF.
  destruct (Z.eq_dec (N * 100 + F) 0) as [E|E].
  { assert (N = 0 /\ F = 0) as [-> ->] by lia. exists 0. vm_compute. reflexivity. }
  set (P := N * 100 + F) in *.
  assert (HP : 0 < P < 100 * 2 ^ 46).
  { unfold P. split; [lia|]. change (2 ^ 46) with (2 * 2 ^ 45). lia. }
  unfold round_to_f64.
  replace (P =? 0) with false by (symmetry; apply Z.eqb_neq; exact E).
  pose proof (floor_log2_q_le P 100 46 ltac:(lia) ltac:(lia) ltac:(lia) ltac:(lia)) as HL.
  set (L := floor_log2_q P 100) in *.
  set (k := Z.max (-1074) (L - 52)).
  assert (Hk : -1074 <= k <= -7) by (unfold k; lia).
  replace (0 <=? k) with false by (symmetry; apply Z.leb_gt; lia).
  set (K := 2 ^ (- k)).
  assert (HK : 128 <= K).
  { unfold K. change 128 with (2 ^ 7). apply Z.pow_le_mono_r; lia. }
  set (m := round_ne_div (P * K) 100).
  pose proof (round_ne_div_bounds (P * K) 100 ltac:(lia)) as Hm. fold m in Hm.
  pose proof (Z.mul_div_le (P * K) 100 ltac:(lia)) as Hd1.
  pose proof (Z.div_le_lower_bound (P * K) 100 (N * K) ltac:(lia) ltac:(unfold P; nia)) as Hd2.
  assert (Hm100 : 100 * m <= (100 * N + 99) * K + 100) by (unfold P in *; nia).
  assert (H1024 : 2 ^ (1024 - k) = 2 ^ 1024 * K).
  { unfold K. rewrite <- Z.pow_add_r by lia. f_equal; lia. }
  assert (H64 : 2 ^ (64 - k) = 2 ^ 64 * K).
  { unfold K. rewrite <- Z.pow_add_r by lia. f_equal; lia. }
  assert (Hbig : 2 ^ 46 * 100 < 2 ^ 64) by (vm_compute; reflexivity).
  assert (Hbig' : 2 ^ 64 <= 2 ^ 1024) by (apply Z.pow_le_mono_r; lia).
  assert (Hmk : m < 2 ^ 64 * K) by nia.
  rewrite H1024. replace (2 ^ 1024 * K <=? m) with false by (symmetry; apply Z.leb_gt; nia).
  unfold from_secs_f64. cbn [andb].
  replace (0 <=? k) with false by (symmetry; apply Z.leb_gt; lia).
  rewrite H64. replace (2 ^ 64 * K <=? m) with false by (symmetry; apply Z.leb_gt; lia).
  unfold round_scaled. replace (0 <=? k) with false by (symmetry; apply Z.leb_gt; lia).
  fold K.
  set (t := round_ne_div (m * NANOS_PER_SEC) K).
  pose proof (round_ne_div_bounds (m * NANOS_PER_SEC) K ltac:(lia)) as Ht. fold t in Ht.
  unfold NANOS_PER_SEC in *.
  assert (Hlo : N * 1000000000 <= (m * 1000000000) / K).
  { apply Z.div_le_lower_bound; nia. }
  assert (Hhi : (m * 1000000000) / K <= (N + 1) * 1000000000 - 2).
  { apply Z.div_le_upper_bound; [lia|]. nia. }
  exists (t mod 1000000000). f_equal. f_equal.
  symmetry. apply Z.div_unique with (t - N * 1000000000); [left; lia|ring].
Qed.

End Uptime.

(** X: when the first token of [/proc/uptime] has the kernel's form
    [N.FF] (digits, a point and two digits) with [N] below [2^45] seconds,
    the uptime probe shows exactly [N] whole seconds decomposed by
    [format_uptime]: the float parsing and the rounding to nanoseconds never
    move it to another second. *)
Theorem get_uptime_kernel_format (w : World) (s ip fp : rstr) (rest : list rstr) :
  w_read w (lit "/proc/uptime") = Some s ->
  split_whitespace s = (ip ++ 46 :: fp) :: rest ->
  ip <> [] -> forallb is_digit ip = true -> forallb is_digit fp = true ->
  List.length fp = 2%nat -> digits_to_Z ip < 2 ^ 45 ->
  snd (get_uptime w) = Ret (format_uptime (digits_to_Z ip)).
Proof.
  intros Hr Hs Hne Hip Hfp Hl HN.
  pose proof (Uptime.digits_to_Z_range ip Hip) as [HN0 _].
  pose proof (Uptime.digits_to_Z_range fp Hfp) as HF. rewrite Hl in HF.
  change (10 ^ Z.of_nat 2) with 100 in HF.
  destruct (Uptime.from_secs_kernel_format (digits_to_Z ip) (digits_to_Z fp)
              ltac:(lia) ltac:(exact HF)) as [nanos Hn].
  unfold get_uptime. rewrite NoPanic.snd_call.
  rewrite (NoPanic.snd_bind_of_ret _ _ w (Some s)) by (unfold read_to_string; rewrite Hr; reflexivity).
  rewrite Hs, Uptime.parse_f64_kernel_format by assumption.
  rewrite Uptime.digits_to_Z_app, Hl. change (10 ^ Z.of_nat 2) with 100.
  rewrite Hn. reflexivity.
Qed.

Lemma get_uptime_kernel_format_witness :
  snd (get_uptime sample_world) = Ret (lit "1d 1h 1m").
Proof.
  change (lit "1d 1h 1m") with (format_uptime (digits_to_Z (lit "90061"))).
  apply (get_uptime_kernel_format sample_world (lit ("90061.52 1234.00" ++ nl))
           (lit "90061") (lit "52") [lit "1234.00"]);
    try (vm_compute; reflexivity); discriminate.
Defined.

(** X: for a non-negative second count the uptime text shows days, hours
    below 24 and minutes below 60 that together make up exactly the whole
    minutes of the count; the seconds below a minute are dropped. *)
Theorem format_uptime_whole_minutes (t : Z) :
  0 <= t ->
  exists d h m, 0 <= d /\ 0 <= h < 24 /\ 0 <= m < 60 /\ 1440 * d + 60 * h + m = t / 60
  /\ format_uptime t = (if 0 <? d then fmt_int d ++ lit "d " ++ fmt_int h ++ lit "h " ++ fmt_int m ++ lit "m"
                        else if 0 <? h then fmt_int h ++ lit "h " ++ fmt_int m ++ lit "m"
                        else fmt_int m ++ lit "m").
Proof.
  intros Ht. exists (t / 86400), ((t mod 86400) / 3600), ((t mod 3600) / 60).
  pose proof (Z.div_mod t 86400 ltac:(lia)). pose proof (Z.mod_pos_bound t 86400 ltac:(lia)).
  pose proof (Z.div_mod (t mod 86400) 3600 ltac:(lia)).
  pose proof (Z.mod_pos_bound (t mod 86400) 3600 ltac:(lia)).
  pose proof (Z.div_mod t 3600 ltac:(lia)). pose proof (Z.mod_pos_bound t 3600 ltac:(lia)).
  pose proof (Z.div_mod (t mod 3600) 60 ltac:(lia)).
  pose proof (Z.mod_pos_bound (t mod 3600) 60 ltac:(lia)).
  pose proof (Z.div_mod t 60 ltac:(lia)). pose proof (Z.mod_pos_bound t 60 ltac:(lia)).
  pose proof (Z.div_pos t 86400 ltac:(lia) ltac:(lia)).
  repeat split; lia.
Qed.

Lemma format_uptime_whole_minutes_witness :
  exists d h m, 0 <= d /\ 0 <= h < 24 /\ 0 <= m < 60 /\ 1440 * d + 60 * h + m = 90061 / 60
  /\ format_uptime 90061 = (if 0 <? d then fmt_int d ++ lit "d " ++ fmt_int h ++ lit "h " ++ fmt_int m ++ lit "m"
                            else if 0 <? h then fmt_int h ++ lit "h " ++ fmt_int m ++ lit "m"
                            else fmt_int m ++ lit "m").
Proof. apply format_uptime_whole_minutes. lia. Defined.

Module Column.

Lemma fold_spaces_out (k n : nat) :
  fold_left visible_step (repeat SPACE n) (k, false) = ((k + n)%nat, false).
Proof.
  revert k; induction n as [|n IH]; intros k; [rewrite Nat.add_0_r; reflexivity|].
  cbn [repeat fold_left]. unfold visible_step at 2. cbn. rewrite IH. f_equal. lia.
Qed.

Lemma fold_spaces_in (k n : nat) :
  fold_left visible_step (repeat SPACE n) (k, true) = (k, true).
Proof.
  induction n as [|n IH]; [reflexivity|]. cbn [repeat fold_left]. exact IH.
Qed.

End Column.

(** X: each row of the layout prints the logo cell, then padding, then the
    info cell; when the logo cell does not end inside an unterminated escape
    sequence, the logo cell and its padding are [max_logo_len + 4] columns
    wide, so every info cell starts at the same column; when it does end
    inside one, the padding spaces are swallowed by the escape and add no
    width. *)
Theorem print_row_info_column (logo info_lines : list rstr) (i : nat) (w : World) :
  exists pre,
    print_row logo info_lines (max_logo_len logo) i w
    = ([EvOut (pre ++ cell info_lines i ++ [NL])], Ret tt)
    /\ firstn (List.length (cell logo i)) pre = cell logo i
    /\ (snd (fold_left visible_step (cell logo i) (0%nat, false)) = false ->
        visible_length pre = (max_logo_len logo + padding)%nat)
    /\ (snd (fold_left visible_step (cell logo i) (0%nat, false)) = true ->
        visible_length pre = visible_length (cell logo i)).
Proof.
  set (c := cell logo i).
  set (n := (max_logo_len logo - visible_length c + padding)%nat).
  exists (c ++ repeat SPACE n).
  pose proof (Layout.cell_width_le logo i) as Hw. fold c in Hw.
  split.
  - unfold print_row. fold c.
    replace (Nat.ltb (max_logo_len logo) (visible_length c)) with false
      by (symmetry; apply Nat.ltb_ge; exact Hw).
    unfold println, print. rewrite <- !app_assoc. reflexivity.
  - split; [rewrite firstn_app, Nat.sub_diag, firstn_all; apply app_nil_r|].
    unfold visible_length. rewrite fold_left_app.
    destruct (fold_left visible_step c (0%nat, false)) as [k b] eqn:E.
    cbn [fst snd]. split; intros ->.
    + rewrite Column.fold_spaces_out. cbn [fst].
      unfold n, visible_length. rewrite E. cbn [fst]. unfold visible_length in Hw.
      rewrite E in Hw. cbn [fst] in Hw. unfold padding. lia.
    + rewrite Column.fold_spaces_in. reflexivity.
Qed.

Module Logo.

Definition logo_step (st : list rstr * rstr) (c : rchar) : list rstr * rstr :=
  let (res, cur) := st in if c =? NL then (res ++ [cur], []) else (res, cur ++ [c]).

Lemma logo_lines_fold (content : rstr) :
  logo_lines content
  = let '(result, current_line) := fold_left logo_step content ([], []) in
    match current_line with [] => result | _ => result ++ [current_line] end.
Proof. reflexivity. Qed.

Lemma fold_no_nl (l : rstr) (res : list rstr) (cur : rstr) :
  ~ In NL l -> fold_left logo_step l (res, cur) = (res, cur ++ l).
Proof.
  revert cur; induction l as [|c l IH]; intros cur H; [rewrite app_nil_r; reflexivity|].
  cbn [fold_left]. unfold logo_step at 2.
  destruct (Z.eqb_spec c NL) as [->|_]; [simpl in H; tauto|].
  rewrite IH by (simpl in H; tauto). rewrite <- app_assoc. reflexivity.
Qed.

Lemma fold_lines (ls : list rstr) (last_line : rstr) (res : list rstr) :
  Forall (fun l => ~ In NL l) ls -> ~ In NL last_line ->
  fold_left logo_step (List.concat (map (fun l => l ++ [NL]) ls) ++ last_line) (res, [])
  = (res ++ ls, last_line).
Proof.
  revert res; induction ls as [|l ls IH]; intros res Hls Hl.
  - cbn. rewrite app_nil_r. apply fold_no_nl, Hl.
  - inversion Hls as [|? ? Hl0 Hrest]; subst.
    cbn [map List.concat]. rewrite <- !app_assoc, fold_left_app, fold_no_nl by exact Hl0.
    cbn [app fold_left]. unfold logo_step at 2. rewrite Z.eqb_refl.
    rewrite IH by assumption. rewrite <- app_assoc. reflexivity.
Qed.

End Logo.

(** X: the logo reader splits the file at each newline and keeps every
    other character, escape sequences and carriage returns included: lines
    without newline, each followed by one, and then an optional final line
    without newline, are read back exactly, the final line only when it is
    non-empty. *)
Theorem logo_lines_round_trip (ls : list rstr) (last_line : rstr) :
  Forall (fun l => ~ In NL l) ls -> ~ In NL last_line ->
  logo_lines (List.concat (map (fun l => l ++ [NL]) ls) ++ last_line)
  = ls ++ match last_line with [] => [] | _ => [last_line] end.
Proof.
  intros Hls Hl. rewrite Logo.logo_lines_fold, Logo.fold_lines by assumption.
  destruct last_line; cbn [app]; rewrite ?app_nil_r; reflexivity.
Qed.

Lemma logo_lines_round_trip_witness :
  logo_lines (lit ("ab" ++ nl ++ nl ++ "c")) = [lit "ab"; []; lit "c"].
Proof.
  apply (logo_lines_round_trip [lit "ab"; []] (lit "c")).
  - repeat constructor; intros H; vm_compute in H;
      repeat (destruct H as [H|H]; [discriminate|]); exact H.
  - intros H; vm_compute in H; repeat (destruct H as [H|H]; [discriminate|]); exact H.
Defined.

Module Display.

Lemma snd_bind_panic {A B} (m : M A) (k : A -> M B) (w : World) (msg : string) :
  snd (m w) = Panic msg -> snd (bind m k w) = Panic msg.
Proof. unfold bind. destruct (m w) as [t o]. cbn. intros ->. reflexivity. Qed.

Lemma read_logo_file_ret (w : World) :
  exists r, snd (read_logo_file w) = Ret r /\ filter is_out (fst (read_logo_file w)) = [].
Proof.
  unfold read_logo_file, bind, path_exists, read_to_string.
  destruct (w_exists w (lit "resources/fumofetch_logo.txt")); eexists; split; reflexivity.
Qed.

Lemma whoami_no_out (w : World) : filter is_out (fst (whoami w)) = [].
Proof.
  unfold whoami, call, bind, env_var, output, ret, panic.
  destruct (w_env w (lit "USER")); [reflexivity|].
  destruct (w_env w (lit "USERNAME")); [reflexivity|].
  destruct (w_spawn w (lit "whoami") []); reflexivity.
Qed.

Lemma filter_out_rows (rows : list rstr) :
  filter is_out (map (fun r => EvOut r) rows) = map (fun r => EvOut r) rows.
Proof. induction rows as [|r rows IH]; [reflexivity|]. cbn. rewrite IH. reflexivity. Qed.

End Display.

(** X: [display_info] writes nothing to stdout when the user name cannot
    be determined (it panics first); otherwise it writes the hide-cursor
    sequence, one row per line of the longer of the logo and the eleven info
    lines, and the show-cursor sequence, and returns normally.  The logo is
    the file's when it can be read, else the eight-line fallback. *)
Theorem display_info_writes (info : SystemInfo) (w : World) :
  (forall msg, snd (whoami w) = Panic msg ->
     snd (display_info info w) = Panic msg /\ filter is_out (fst (display_info info w)) = [])
  /\ (forall user, snd (whoami w) = Ret user ->
     snd (display_info info w) = Ret tt
     /\ exists rows,
          filter is_out (fst (display_info info w))
          = EvOut ([ESC] ++ lit "[?25l") :: rows ++ [EvOut ([ESC] ++ lit "[?25h")]
          /\ List.length rows = Nat.max (List.length (logo_of w)) 11).
Proof.
  destruct (Display.read_logo_file_ret w) as (r & Hr & Hro).
  unfold logo_of. rewrite Hr. cbn iota.
  unfold display_info.
  rewrite (NoPanic.snd_bind_of_ret _ _ w r Hr), Mon.fst_bind, Hr, filter_app, Hro. cbn [app].
  split.
  - intros msg Hw. rewrite Mon.fst_bind, Hw, app_nil_r, Display.whoami_no_out.
    split; [apply Display.snd_bind_panic; exact Hw|reflexivity].
  - intros user Hw.
    rewrite (NoPanic.snd_bind_of_ret _ _ w user Hw), Mon.fst_bind, Hw, filter_app,
      Display.whoami_no_out. cbn [app].
    set (logo := match r with Some l => l | None => fallback_logo end).
    set (n := Nat.max (List.length logo) (List.length (info_lines_of user info))).
    assert (E : (_ <- print (ESC :: lit "[?25l") ;; _ <- layout logo (info_lines_of user info) ;;
                 print (ESC :: lit "[?25h")) w
                = (EvOut (ESC :: lit "[?25l")
                   :: map (fun i => EvOut (row_spec logo (info_lines_of user info) i ++ [NL])) (seq 0 n)
                   ++ [EvOut (ESC :: lit "[?25h")], Ret tt)).
    { unfold bind, print, layout. cbv beta iota.
      rewrite Layout.print_rows_trace. reflexivity. }
    rewrite E. cbn [fst snd]. split; [reflexivity|].
    eexists. split.
    + cbn [filter is_out]. rewrite filter_app.
      rewrite <- (map_map (fun i => row_spec logo (info_lines_of user info) i ++ [NL]) EvOut).
      rewrite Display.filter_out_rows. reflexivity.
    + rewrite !length_map, length_seq. reflexivity.
Qed.

Module Nvidia.

Lemma modinfo_version_trimmed (out v : rstr) :
  modinfo_version out = Some v -> edge_ok is_whitespace v = true.
Proof.
  unfold modinfo_version. intros H. apply Mon.find_map_some in H as (l & _ & Hl).
  destruct (starts_with (lit "version:") l); [|discriminate].
  destruct (nth_error (split_char COLON l) 1) as [p|]; [|discriminate].
  cbn [option_map] in Hl. injection Hl as <-. apply Trim.trim_edge_ok.
Qed.

End Nvidia.

(** X: the NVIDIA driver probe never panics and returns a trimmed
    version.  It runs [modinfo nvidia] exactly when [nvidia-smi] cannot be
    spawned or prints only white space; a non-blank [nvidia-smi] answer is
    returned without consulting [modinfo]. *)
Theorem get_nvidia_driver_version_smi_first (w : World) :
  exists v, snd (get_nvidia_driver_version w) = Ret v
    /\ edge_ok is_whitespace v = true
    /\ (In (EvSpawn (lit "modinfo") [lit "nvidia"]) (fst (get_nvidia_driver_version w))
        <-> forall out, w_spawn w (lit "nvidia-smi")
                          [lit "--query-gpu=driver_version"; lit "--format=csv,noheader"]
                        = Some out -> trim out = []).
Proof.
  unfold get_nvidia_driver_version, modinfo_fallback, call, bind, output, ret.
  cbv beta iota zeta.
  destruct (w_spawn w (lit "nvidia-smi")
              [lit "--query-gpu=driver_version"; lit "--format=csv,noheader"]) as [out|] eqn:Es.
  1: destruct (trim out) as [|c r] eqn:Et.
  1,3: destruct (w_spawn w (lit "modinfo") [lit "nvidia"]) as [mo|];
       cbv beta iota;
       [destruct (modinfo_version mo) as [v|] eqn:Ev; cbv beta iota|].
  all: cbn [fst snd app].
  all: match goal with
       | |- exists _, Ret ?x = Ret _ /\ _ => exists x
       end; split; [reflexivity|].
  all: try (split; [vm_compute; reflexivity|]).
  all: try (split; [apply (Nvidia.modinfo_version_trimmed mo); exact Ev|]).
  all: try (split; [rewrite <- Et; apply Trim.trim_edge_ok|]).
  all: split.
  all: try (intros; congruence).
  all: try (intros _; right; right; left; reflexivity).
  all: try (intros H; specialize (H _ eq_refl); congruence).
  all: try (intros [H|[H|H]]; [discriminate H|vm_compute in H; discriminate H|contradiction]).
Qed.

(** X: [whoami] takes [USER] first, then [USERNAME], returning the
    variable's value unchanged; it spawns the [whoami] command exactly when
    both variables are unset. *)
Theorem whoami_env_precedence (w : World) :
  (In (EvSpawn (lit "whoami") []) (fst (whoami w))
     <-> w_env w (lit "USER") = None /\ w_env w (lit "USERNAME") = None)
  /\ (forall u, w_env w (lit "USER") = Some u -> snd (whoami w) = Ret u)
  /\ (forall u, w_env w (lit "USER") = None -> w_env w (lit "USERNAME") = Some u ->
        snd (whoami w) = Ret u).
Proof.
  unfold whoami, call, bind, env_var, output, ret.
  cbv beta iota zeta.
  destruct (w_env w (lit "USER")) as [u|] eqn:Eu;
    [|destruct (w_env w (lit "USERNAME")) as [u2|] eqn:Eu2;
      [|destruct (w_spawn w (lit "whoami") []) as [o|]]];
    cbv beta iota; cbn [fst snd app].
  all: split; [split|split].
  all: try (intros [H|H]; [discriminate H|contradiction]).
  all: try (intros [? _]; discriminate).
  all: try (intros [_ ?]; discriminate).
  all: try (intros _; right; left; reflexivity).
  all: try (intros v Hv; discriminate Hv).
  all: try (intros v Hv; injection Hv as <-; reflexivity).
  all: try (intros v Hv Hv2; discriminate).
  all: try (intros v Hv Hv2; injection Hv2 as <-; reflexivity).
  all: try (intros _; split; reflexivity).
Qed.
